(** * rwcarlsen/optim: evaluators, meshes and the particle swarm

    A shallow embedding of the Go packages [optim] (points, objectives,
    the serial and the caching evaluator), [mesh] (grid snapping) and
    [pswarm] (particles, the default mover, the iterator constructor),
    followed by the properties of the specification stated over it.

    Conventions of the embedding:
    - [float64] is Rocq's primitive binary64 [float]; arithmetic and
      comparisons are the IEEE-754 ones of [PrimFloat];
    - a Go [error] is an [option error], [None] standing for [nil];
    - a panic (index out of range, a failed basis inversion) is [None] in
      the [option] monad;
    - a Go interface is a type class, the receiver being threaded through
      the call so that a method may update it. *)

From Stdlib Require Import ZArith Floats Uint63 String.
From stdpp Require Import base tactics option list gmap.

Local Open Scope Z_scope.

(* Decimal constants such as 0.9 stand for the nearest binary64 value,
   as they do in Go. *)
Set Warnings "-inexact-float".

(** ** Floating-point helpers: the parts of Go's [math] the code calls *)

Module GoMath.

Definition float64 : Type := float.

(** Integer part of a finite [f >= 1]: the mantissa with the fractional
    bits cleared, as [math.Modf] does on the bit pattern. *)
Definition trunc_ge1 (f : float) : float :=
  match Prim2SF f with
  | S754_finite _ m e =>
      if 0 <=? e then f
      else of_uint63 (Uint63.of_Z (Z.shiftr (Z.pos m) (- e)))
  | _ => f
  end.

(** [math.Modf] for an argument that is not negative. *)
Definition modf_nonneg (f : float) : float * float :=
  if (f <? 1)%float then
    if (f =? 0)%float then (f, f) else (0%float, f)
  else
    let int := trunc_ge1 f in (int, (f - int)%float).

(** [math.Modf]: integer and fractional part, both with the sign of [f]. *)
Definition Modf (f : float) : float * float :=
  if (f <? 1)%float then
    if (f <? 0)%float then
      let '(int, frac) := modf_nonneg (- f)%float in
      ((- int)%float, (- frac)%float)
    else if (f =? 0)%float then (f, f)
    else (0%float, f)
  else
    let int := trunc_ge1 f in (int, (f - int)%float).

(** [math.Floor]. *)
Definition Floor (x : float) : float :=
  if (x =? 0)%float || is_nan x || is_infinity x then x
  else if (x <? 0)%float then
    let '(d, fract) := Modf (- x)%float in
    let d := if negb (fract =? 0)%float then (d + 1)%float else d in
    (- d)%float
  else fst (Modf x).

Definition Max (x y : float) : float :=
  if is_nan x || is_nan y then nan
  else if (x <? y)%float then y
  else if (y <? x)%float then x
  else if get_sign x then y else x.

Definition Min (x y : float) : float :=
  if is_nan x || is_nan y then nan
  else if (x <? y)%float then x
  else if (y <? x)%float then y
  else if get_sign x then x else y.

End GoMath.
Import GoMath.

(** ** Package [optim] *)

Module Optim.

Definition error : Type := string.

Record Point : Type := mkPoint { Pos : list float; Val : float }.

(** The zero value of [Point], what [make([]Point, n)] is filled with. *)
Definition zeroPoint : Point := {| Pos := []; Val := 0%float |}.

(** [Objectiver]: the receiver is returned next to the result, so that an
    implementation with state of its own (a counter, a log) is covered. *)
Class Objectiver (O : Type) : Type :=
  Objective : O → list float → (float * option error) * O.

(** [SimpleObjectiver func([]float64) float64]. *)
Definition SimpleObjectiver : Type := list float → float.

#[export] Instance SimpleObjectiver_Objectiver : Objectiver SimpleObjectiver :=
  fun so v => ((so v, None), so).

(** [ObjectivePrinter]: counts the calls and prints [Count], the
    variables and the value; [Printed] is what went to standard output,
    most recent line first. *)
Record ObjectivePrinter (O : Type) : Type := mkObjectivePrinter {
  op_Objectiver : O;
  Count : Z;
  Printed : list (Z * list float * float)
}.
Arguments mkObjectivePrinter {O} _ _ _.
Arguments op_Objectiver {O} _.
Arguments Count {O} _.
Arguments Printed {O} _.

Definition NewObjectivePrinter {O} (obj : O) : ObjectivePrinter O :=
  mkObjectivePrinter obj 0 [].

#[export] Instance ObjectivePrinter_Objectiver {O} `{Objectiver O} :
  Objectiver (ObjectivePrinter O) :=
  fun op v =>
    let '((val, err), inner) := Objective (op_Objectiver op) v in
    let count := Count op + 1 in
    ((val, err), mkObjectivePrinter inner count ((count, v, val) :: Printed op)).

(** [Evaler]: evaluates a batch of points; both the evaluator and the
    objective may change state. *)
Class Evaler (E : Type) : Type :=
  Eval : ∀ {O} `{Objectiver O}, E → O → list Point →
         (list Point * option error) * (E * O).

(** *** The serial evaluator *)

Record SerialEvaler : Type := mkSerialEvaler { ContinueOnErr : bool }.

(** The loop of [SerialEvaler.Eval]: [i] is the index of the head of
    [points] in the input, [results] the slice made before the loop. *)
Fixpoint SerialEvaler_loop {O} `{Objectiver O} (ev : SerialEvaler) (i : nat)
    (points : list Point) (results : list Point) (obj : O)
    : (list Point * option error) * O :=
  match points with
  | [] => ((results, None), obj)
  | p :: rest =>
      let '((val, err), obj) := Objective obj (Pos p) in
      let results := <[i := {| Pos := Pos p; Val := val |}]> results in
      match err with
      | Some e =>
          if negb (ContinueOnErr ev) then ((results, Some e), obj)
          else SerialEvaler_loop ev (S i) rest results obj
      | None => SerialEvaler_loop ev (S i) rest results obj
      end
  end.

Definition SerialEvaler_Eval {O} `{Objectiver O} (ev : SerialEvaler) (obj : O)
    (points : list Point) : (list Point * option error) * (SerialEvaler * O) :=
  let results := replicate (length points) zeroPoint in
  let '(res, obj) := SerialEvaler_loop ev 0 points results obj in
  (res, (ev, obj)).

#[export] Instance SerialEvaler_Evaler : Evaler SerialEvaler :=
  fun O _ ev obj points => SerialEvaler_Eval ev obj points.

(** *** Digest of a point: [hashPoint] *)

(** [math.Float64bits]: the IEEE-754 bit pattern.  Rocq's floats have a
    single NaN; it is given the pattern of Go's [math.NaN()]. *)
Definition Float64bits (f : float) : Z :=
  match Prim2SF f with
  | S754_zero s => if s then 2 ^ 63 else 0
  | S754_infinity s => (if s then 2 ^ 63 else 0) + 0x7FF0000000000000
  | S754_nan => 0x7FF8000000000001
  | S754_finite s m e =>
      (if s then 2 ^ 63 else 0) +
      (if Z.pos m <? 2 ^ 52 then Z.pos m
       else (e + 1075) * 2 ^ 52 + (Z.pos m - 2 ^ 52))
  end.

(** [binary.BigEndian.PutUint64]: the eight bytes, most significant first. *)
Definition PutUint64 (v : Z) : list Z :=
  map (fun k => Z.land (Z.shiftr v (8 * k)) 255) [7; 6; 5; 4; 3; 2; 1; 0].

(** [crypto/sha1] is not part of the repository: [sha1.Sum] is a
    parameter, a function from the data to the digest bytes. *)
Class Sha1 : Type := sha1_Sum : list Z → list Z.

Abbreviation digest := (list Z) (only parsing).

Definition hashPoint `{Sha1} (p : Point) : digest :=
  let data := concat (map (fun x => PutUint64 (Float64bits x)) (Pos p)) in
  sha1_Sum data.

(** The bytes that [hashPoint] hands to [sha1.Sum], by themselves. *)
Definition pointData (p : Point) : list Z :=
  concat (map (fun x => PutUint64 (Float64bits x)) (Pos p)).

(** *** The caching evaluator *)

Record CacheEvaler (E : Type) : Type := mkCacheEvaler {
  ev : E;
  cache : gmap digest float
}.
Arguments mkCacheEvaler {E} _ _.
Arguments ev {E} _.
Arguments cache {E} _.

Definition NewCacheEvaler {E} (e : E) (dims : Z) : CacheEvaler E :=
  mkCacheEvaler e ∅.

(** First loop of [CacheEvaler.Eval]: the cached points are answered at
    once ([results]), the others are collected ([newp]). *)
Fixpoint CacheEvaler_lookup `{Sha1} (c : gmap digest float)
    (points : list Point) (results newp : list Point)
    : list Point * list Point :=
  match points with
  | [] => (results, newp)
  | p :: rest =>
      match c !! hashPoint p with
      | Some val =>
          CacheEvaler_lookup c rest (results ++ [{| Pos := Pos p; Val := val |}]) newp
      | None => CacheEvaler_lookup c rest results (newp ++ [p])
      end
  end.

(** Second loop: every returned point is stored under its digest. *)
Definition CacheEvaler_store `{Sha1} (c : gmap digest float)
    (newresults : list Point) : gmap digest float :=
  foldl (fun c p => <[hashPoint p := Val p]> c) c newresults.

Definition CacheEvaler_Eval `{Sha1} {E} `{Evaler E} {O} `{Objectiver O}
    (cev : CacheEvaler E) (obj : O) (points : list Point)
    : (list Point * option error) * (CacheEvaler E * O) :=
  let '(results, newp) := CacheEvaler_lookup (cache cev) points [] [] in
  let '((newresults, err), (inner, obj)) := Eval (ev cev) obj newp in
  let c := CacheEvaler_store (cache cev) newresults in
  ((results ++ newresults, err), (mkCacheEvaler inner c, obj)).

#[export] Instance CacheEvaler_Evaler `{Sha1} {E} `{Evaler E} :
  Evaler (CacheEvaler E) :=
  fun O _ cev obj points => CacheEvaler_Eval cev obj points.

End Optim.

(** ** Package [mesh] *)

Module Mesh.

(** [mat64.Dense], given by its rows. *)
Definition Dense : Type := list (list float).

(** [gonum/matrix/mat64] is not part of the repository.  [Inverse] is
    [None] when the inversion reports an error; [MulVec a v] is the
    product of [a] with the column [v], [None] when the library panics
    on the dimensions. *)
Class Mat64 : Type := {
  Inverse : Dense → option Dense;
  MulVec : Dense → list float → option (list float)
}.

(** The [Mesh] interface.  [Nearest] may fix the origin and the inverse
    basis of the receiver, so the receiver is returned with the point. *)
Class Mesh (M : Type) : Type := {
  Step : M → float;
  Nearest : M → list float → option (list float * M);
  SetStep : M → float → M;
  SetOrigin : M → list float → option M;
  Origin : M → list float
}.

(** *** The unbounded grid *)

Record Infinite : Type := mkInfinite {
  Center : list float;
  Basis : option Dense;
  StepSize : float;
  inverter : option Dense
}.

(** One coordinate of the "calculate nearest point" loop. *)
Definition snap (step x : float) : float :=
  let '(n, rem) := Modf (x / step)%float in
  let n := if (0.5 <? rem / step)%float then (n + 1)%float else n in
  (n * step)%float.

Definition Infinite_Nearest `{Mat64} (m : Infinite) (p : list float)
    : option (list float * Infinite) :=
  if (StepSize m =? 0)%float then Some (p, m)
  else
    let l := length (Center m) in
    if negb (l =? 0)%nat && negb (l =? length p)%nat then None
    else
      (* set up origin and inverter matrix if necessary *)
      let center :=
        if (length (Center m) =? 0)%nat then replicate (length p) 0%float
        else Center m in
      inv ← match Basis m, inverter m with
            | Some b, None => inv ← Inverse b; Some (Some inv)
            | _, i => Some i
            end;
      let m := mkInfinite center (Basis m) (StepSize m) inv in
      (* translate p based on origin and transform to new vector space *)
      let newp := zip_with (fun x c => (x - c)%float) p center in
      rotv ← match inv with
             | Some i => MulVec i newp
             | None => Some newp
             end;
      (* calculate nearest point *)
      nearest ← mapM (fun i => x ← rotv !! i; Some (snap (StepSize m) x))
                     (seq 0 (length center));
      (* transform back to standard space *)
      nearest ← match Basis m with
                | Some b => MulVec b nearest
                | None => Some nearest
                end;
      let nv := zip_with (fun x c => (x + c)%float) nearest center in
      Some (nv, m).

#[export] Instance Infinite_Mesh `{Mat64} : Mesh Infinite := {
  Step m := StepSize m;
  Nearest := Infinite_Nearest;
  SetStep m step := mkInfinite (Center m) (Basis m) step (inverter m);
  SetOrigin m origin := Some (mkInfinite origin (Basis m) (StepSize m) (inverter m));
  Origin m := Center m
}.

(** *** The bounded mesh *)

Record Bounded (M : Type) : Type := mkBounded {
  Lower : list float;
  Upper : list float;
  b_Mesh : M
}.
Arguments mkBounded {M} _ _ _.
Arguments Lower {M} _.
Arguments Upper {M} _.
Arguments b_Mesh {M} _.

Definition NewBounded {M} `{Mesh M} (m : M) (lower upper : list float)
    : option (Bounded M) :=
  if negb (length lower =? length upper)%nat then None
  else
    '(_, m) ← Nearest m lower;
    Some (mkBounded lower upper m).

(** The clamping loop of [Bounded.Nearest]; [i] is the index of the head
    of [pdup]. *)
Fixpoint Bounded_clamp (lower upper : list float) (i : nat)
    (pdup : list float) : option (list float) :=
  match pdup with
  | [] => Some []
  | x :: rest =>
      lo ← lower !! i;
      let x := Max lo x in
      up ← upper !! i;
      let x := Min up x in
      rest ← Bounded_clamp lower upper (S i) rest;
      Some (x :: rest)
  end.

Definition Bounded_Nearest {M} `{Mesh M} (m : Bounded M) (p : list float)
    : option (list float * Bounded M) :=
  pdup ← Bounded_clamp (Lower m) (Upper m) 0 p;
  '(q, inner) ← Nearest (b_Mesh m) pdup;
  Some (q, mkBounded (Lower m) (Upper m) inner).

#[export] Instance Bounded_Mesh {M} `{Mesh M} : Mesh (Bounded M) := {
  Step m := Step (b_Mesh m);
  Nearest := Bounded_Nearest;
  SetStep m step := mkBounded (Lower m) (Upper m) (SetStep (b_Mesh m) step);
  SetOrigin m origin :=
    inner ← SetOrigin (b_Mesh m) origin;
    Some (mkBounded (Lower m) (Upper m) inner);
  Origin m := Origin (b_Mesh m)
}.

(** *** The integer mesh *)

Record Integer (M : Type) : Type := mkInteger { i_Mesh : M }.
Arguments mkInteger {M} _.
Arguments i_Mesh {M} _.

Definition Integer_Nearest {M} `{Mesh M} (m : Integer M) (p : list float)
    : option (list float * Integer M) :=
  '(gridp, inner) ← Nearest (i_Mesh m) p;
  (* round to nearest int *)
  Some (map (fun g => Floor (g + 0.5)%float) gridp, mkInteger inner).

#[export] Instance Integer_Mesh {M} `{Mesh M} : Mesh (Integer M) := {
  Step m := Step (i_Mesh m);
  Nearest := Integer_Nearest;
  SetStep m step := mkInteger (SetStep (i_Mesh m) (Max step 1));
  SetOrigin m origin :=
    '(o, m) ← Integer_Nearest m origin;
    inner ← SetOrigin (i_Mesh m) o;
    Some (mkInteger inner);
  Origin m := Origin (i_Mesh m)
}.

End Mesh.

(** ** Package [pswarm] *)

Module Pswarm.
Import Optim.

(** Modelled from the spec: the accessors of [optim.Point] that [pswarm]
    calls ([Len], [At], [NewPoint]) belong to a declaration of the type
    that is not among the sources; a point is "an ordered coordinate
    vector plus a scalar objective value".  [At] panics out of range. *)
Definition Len (p : Point) : nat := length (Pos p).
Definition At (p : Point) (i : nat) : option float := Pos p !! i.
Definition NewPoint (pos : list float) (val : float) : Point := mkPoint pos val.

Record Particle : Type := mkParticle {
  Id : Z;
  p_Point : Point;
  Vel : list float;
  Best : Point
}.

Definition Update (p : Particle) (newp : Point) : Particle :=
  let p := mkParticle (Id p) (mkPoint (Pos (p_Point p)) (Val newp)) (Vel p) (Best p) in
  if (Val (p_Point p) <? Val (Best p))%float || (Len (Best p) =? 0)%nat
  then mkParticle (Id p) (p_Point p) (Vel p) newp
  else p.

Definition Population : Type := list Particle.

(** [Population.Best]; indexing [pop[0]] panics on an empty population. *)
Definition Population_Best (pop : Population) : option Point :=
  match pop with
  | [] => None
  | p0 :: rest =>
      Some (foldl (fun best p =>
                     if (Val (Best p) <? Val best)%float then Best p else best)
                  (Best p0) rest)
  end.

(** The body of the loop of [Population.Best], by itself. *)
Definition betterBest (best : Point) (p : Particle) : Point :=
  if (Val (Best p) <? Val best)%float then Best p else best.

(** [Population.Points]. *)
Definition Points (pop : Population) : list Point := map p_Point pop.

(** A source of numbers with state of its own, as a [*rand.Rand] or a
    closure [func() float64] is: the sequence it yields and how far it
    has been consumed. *)
Record Source : Type := mkSource { src_seq : nat → float; src_pos : nat }.

Definition draw (s : Source) : float * Source :=
  (src_seq s (src_pos s), mkSource (src_seq s) (S (src_pos s))).

(** The inner loop of [NewPopulation]: one velocity component per entry
    of [minv], [j] being the index of its head; [maxv[j]] panics when
    [maxv] is shorter.  [optim.RandFloat], the package-level generator,
    is not among the sources: its state is the [Source] [rand]. *)
Fixpoint initVel (minv maxv : list float) (j : nat) (rand : Source)
    : option (list float * Source) :=
  match minv with
  | [] => Some ([], rand)
  | lo :: rest =>
      hi ← maxv !! j;
      let '(r, rand) := draw rand in
      '(vel, rand) ← initVel rest maxv (S j) rand;
      Some ((lo + (hi - lo) * r)%float :: vel, rand)
  end.

(** The outer loop of [NewPopulation]; [i] is the index of the head of
    [points]. *)
Fixpoint newParticles (points : list Point) (i : nat) (minv maxv : list float)
    (rand : Source) : option (Population * Source) :=
  match points with
  | [] => Some ([], rand)
  | p :: rest =>
      '(vel, rand) ← initVel minv maxv 0 rand;
      '(pop, rand) ← newParticles rest (S i) minv maxv rand;
      Some (mkParticle (Z.of_nat i) p vel (NewPoint (Pos p) infinity) :: pop,
            rand)
  end.

Definition NewPopulation (points : list Point) (minv maxv : list float)
    (rand : Source) : option (Population * Source) :=
  newParticles points 0 minv maxv rand.

(** [math/rand] is not part of the repository: the numbers that
    [rand.New(rand.NewSource(seed)).Float64()] yields are a parameter. *)
Class MathRand : Type := rand_Float64s : Z → nat → float.

Definition DefaultCognition : float := 0.5.
Definition DefaultSocial : float := 0.5.
Definition DefaultInertia : float := 0x1.ccccccccccccdp-1.

Record SimpleMover : Type := mkSimpleMover {
  Cognition : float;
  Social : float;
  Vmax : float;
  InertiaFn : option Source;
  Rng : option Source
}.

Definition Speed (vel : list float) : float :=
  PrimFloat.sqrt (foldl (fun tot v => (tot + v * v)%float) 0%float vel).

(** The clamp at the end of the body of the velocity loop. *)
Definition clamp (mv : SimpleMover) (vmax : float) (vel : list float)
    : list float :=
  let s := Speed vel in
  if (0 <? Vmax mv)%float && (Vmax mv <? Speed vel)%float
  then map (fun v => (v * (vmax / s))%float) vel
  else vel.

(** New value of component [i], given the inertia weight drawn for it;
    each product and sum is rounded on its own (no fused multiply-add). *)
Definition newVel (mv : SimpleMover) (w1 w2 : float) (best p : Point)
    (w currv : float) (i : nat) : option float :=
  b ← At best i;
  x ← At p i;
  Some (w * currv + Cognition mv * w1 * (b - x)
        + Social mv * w2 * (b - x))%float.

(** The loop "update velocity": [k] components are left, [i] is the
    next one; [vel] is the slice [p.Vel], updated in place. *)
Fixpoint velLoop (mv : SimpleMover) (vmax w1 w2 : float) (best p : Point)
    (k i : nat) (vel : list float) (inertia : Source)
    : option (list float * Source) :=
  match k with
  | O => Some (vel, inertia)
  | S k =>
      currv ← vel !! i;
      let '(w, inertia) := draw inertia in
      v ← newVel mv w1 w2 best p w currv i;
      let vel := <[i := v]> vel in
      let vel := clamp mv vmax vel in
      velLoop mv vmax w1 w2 best p k (S i) vel inertia
  end.

(** The loop "update position". *)
Fixpoint posLoop (p : Point) (vel : list float) (k i : nat)
    : option (list float) :=
  match k with
  | O => Some []
  | S k =>
      x ← At p i;
      v ← vel !! i;
      rest ← posLoop p vel k (S i);
      Some ((x + v)%float :: rest)
  end.

(** The cap [vmax] chosen at the head of the loop over the population:
    if no vmax is given, 1.5 * current speed. *)
Definition velocityCap (mv : SimpleMover) (vel : list float) : float :=
  if (Vmax mv =? 0)%float then (1.5 * Speed vel)%float else Vmax mv.

(** The body of the loop over the population in [SimpleMover.Move]. *)
Definition moveParticle (mv : SimpleMover) (best : Point)
    (rng inertia : Source) (p : Particle)
    : option (Particle * (Source * Source)) :=
  let vmax := velocityCap mv (Vel p) in
  let '(w1, rng) := draw rng in
  let '(w2, rng) := draw rng in
  '(vel, inertia) ←
    velLoop mv vmax w1 w2 best (p_Point p) (length (Vel p)) 0 (Vel p) inertia;
  pos ← posLoop (p_Point p) vel (Len (p_Point p)) 0;
  Some (mkParticle (Id p) (NewPoint pos (Val (p_Point p))) vel (Best p),
        (rng, inertia)).

Fixpoint moveAll (mv : SimpleMover) (best : Point) (rng inertia : Source)
    (pop : Population) : option (Population * (Source * Source)) :=
  match pop with
  | [] => Some ([], (rng, inertia))
  | p :: rest =>
      '(p, (rng, inertia)) ← moveParticle mv best rng inertia p;
      '(rest, st) ← moveAll mv best rng inertia rest;
      Some (p :: rest, st)
  end.

Class Mover (M : Type) : Type :=
  Move : M → Population → option (M * Population).

Definition SimpleMover_Move `{MathRand} (mv : SimpleMover) (pop : Population)
    : option (SimpleMover * Population) :=
  let rng := default (mkSource (rand_Float64s 1) 0) (Rng mv) in
  let inertia := default (mkSource (fun _ => DefaultInertia) 0) (InertiaFn mv) in
  best ← Population_Best pop;
  '(pop, (rng, inertia)) ← moveAll mv best rng inertia pop;
  Some (mkSimpleMover (Cognition mv) (Social mv) (Vmax mv)
                      (Some inertia) (Some rng), pop).

#[export] Instance SimpleMover_Mover `{MathRand} : Mover SimpleMover :=
  SimpleMover_Move.

(** A value of interface type: the dynamic type, its methods, the value. *)
Inductive EvalerValue : Type :=
  evalerValue (E : Type) `{Evaler E} (e : E).
Inductive MoverValue : Type :=
  moverValue (M : Type) `{Mover M} (m : M).

Record Iterator : Type := mkIterator {
  Pop : Population;
  it_Evaler : EvalerValue;
  it_Mover : MoverValue
}.

(** [nil] arguments are [None]. *)
Definition NewIterator `{MathRand} (pop : Population) (e : option EvalerValue)
    (m : option MoverValue) : Iterator :=
  let e := match e with
           | None => evalerValue SerialEvaler (mkSerialEvaler false)
           | Some e => e
           end in
  let m := match m with
           | None => moverValue SimpleMover
                       (mkSimpleMover DefaultCognition DefaultSocial 0 None None)
           | Some m => m
           end in
  mkIterator pop (evalerValue SerialEvaler (mkSerialEvaler false)) m.

(** [Iterator.AddPoint]: the receiver is a copy, but [Pop] is a slice of
    pointers, so the assignment to [it.Pop[0].Best] is seen by the caller;
    [Best()] panics on an empty population. *)
Definition AddPoint (it : Iterator) (p : Point) : option Iterator :=
  best ← Population_Best (Pop it);
  if (Val p <? Val best)%float then
    match Pop it with
    | [] => None
    | p0 :: rest =>
        Some (mkIterator (mkParticle (Id p0) (p_Point p0) (Vel p0) p :: rest)
                         (it_Evaler it) (it_Mover it))
    end
  else Some it.

End Pswarm.

(** ** What the specification says, in its own words

    Reference definitions that follow the specification, to be compared
    with the embedding of the code. *)

Module Spec.
Import Optim Pswarm.

(** Every point evaluated against the objective, one after the other,
    in input order. *)
Fixpoint evalEach {O} `{Objectiver O} (obj : O) (points : list Point)
    : list Point * O :=
  match points with
  | [] => ([], obj)
  | p :: rest =>
      let '((val, _), obj) := Objective obj (Pos p) in
      let '(results, obj) := evalEach obj rest in
      (mkPoint (Pos p) val :: results, obj)
  end.

(** "The final returned error is whichever failure occurred last":
    [last] is the failure seen so far. *)
Fixpoint lastFailure {O} `{Objectiver O} (obj : O) (points : list Point)
    (last : option error) : option error :=
  match points with
  | [] => last
  | p :: rest =>
      let '((_, err), obj) := Objective obj (Pos p) in
      lastFailure obj rest (if err is Some e then Some e else last)
  end.

(** "Points whose digest is already cached are resolved immediately
    from the cache; all others are batched and passed to the underlying
    evaluator in one call." *)
Definition cacheHits `{Sha1} (c : gmap (list Z) float) (points : list Point)
    : list Point :=
  omap (fun p => mkPoint (Pos p) <$> c !! hashPoint p) points.

Definition cacheMisses `{Sha1} (c : gmap (list Z) float) (points : list Point)
    : list Point :=
  filter (fun p => c !! hashPoint p = None) points.

(** "(q + c) * step where q is the integer part of x/step and c is 1
    exactly when the remainder of x after removing q whole steps exceeds
    half the step size, and 0 otherwise." *)
Definition nearestMultiple (step x : float) : float :=
  let q := (Modf (x / step)%float).1 in
  let remainder := (x - q * step)%float in
  let c := if (step / 2 <? remainder)%float then 1%float else 0%float in
  ((q + c) * step)%float.

(** "Per dimension: new_v = inertia*old_v + cognition*r1*(globalBest_dim
    - pos_dim) + social*r2*(globalBest_dim - pos_dim)": every component
    computed from the velocity the particle had before the update, the
    inertia function being called once per component; [i] is the index
    of the head of [vel]. *)
Fixpoint fullVelocity (mv : SimpleMover) (w1 w2 : float) (best p : Point)
    (inertia : Source) (i : nat) (vel : list float) : option (list float) :=
  match vel with
  | [] => Some []
  | currv :: rest =>
      v ← newVel mv w1 w2 best p (src_seq inertia (src_pos inertia + i)) currv i;
      rest ← fullVelocity mv w1 w2 best p inertia (S i) rest;
      Some (v :: rest)
  end.

(** "Finally update position as pos_dim += v_dim for every dimension,
    producing a new point with its coordinate vector advanced and its
    value left stale": what a particle [p'] of dimension [d] moved from
    [p] keeps, and where it is. *)
Definition movedFrom (d : nat) (p p' : Particle) : Prop :=
  Id p' = Id p ∧ Best p' = Best p
  ∧ Val (p_Point p') = Val (p_Point p)
  ∧ length (Vel p') = d ∧ Len (p_Point p') = d
  ∧ ∀ (j : nat) (x v : float),
      Pos (p_Point p) !! j = Some x → Vel p' !! j = Some v →
      Pos (p_Point p') !! j = Some (x + v)%float.

(** "After computing the full velocity vector, if a fixed cap is
    configured and the resulting speed exceeds it, rescale the entire
    velocity vector to have norm equal to the cap": [full] is the
    velocity with every component updated. *)
Definition capAfterFullUpdate (mv : SimpleMover) (full : list float)
    : list float :=
  let s := Speed full in
  if (0 <? Vmax mv)%float && (Vmax mv <? s)%float
  then map (fun v => (v * (Vmax mv / s))%float) full
  else full.

End Spec.

(** ** Concrete inputs used by the examples *)

Module Fixtures.
Import Optim Mesh Pswarm.
Local Open Scope string_scope.

(** An objective that may fail: a function to a value and an error. *)
Definition FallibleObjectiver : Type := list float → float * option error.

#[export] Instance FallibleObjectiver_Objectiver : Objectiver FallibleObjectiver :=
  fun f v => (f v, f).

(** The square of the single coordinate; the coordinates listed in [bad]
    fail with the error given there and the value +Inf. *)
Definition squareExcept (bad : list (float * error)) : FallibleObjectiver :=
  fun v =>
    match v with
    | [x] =>
        match list_find (fun b => (b.1 =? x)%float = true) bad with
        | Some (_, (_, e)) => (infinity, Some e)
        | None => ((x * x)%float, None)
        end
    | _ => (infinity, Some "one coordinate expected")
    end.

Definition failsOnSecond : FallibleObjectiver :=
  squareExcept [(2%float, "second point failed")].

Definition failsOnSecondAndThird : FallibleObjectiver :=
  squareExcept [(2%float, "second point failed"); (3%float, "third point failed")].

Definition threePoints : list Point :=
  [mkPoint [1%float] 0; mkPoint [2%float] 0; mkPoint [3%float] 0].

(** A digest for the examples: the data itself. *)
Definition plainDigest : Sha1 := fun data => data.

(** No basis is used in the examples; the matrix library is never called. *)
Definition noMatrices : Mat64 :=
  {| Inverse := fun _ => None; MulVec := fun _ _ => None |}.

(** A grid without basis. *)
Definition grid (step : float) (center : list float) : Infinite :=
  mkInfinite center None step None.

(** A generator that always yields one half. *)
Definition halves : Source := mkSource (fun _ => 0.5%float) 0.
Definition halvesRand : MathRand := fun _ _ => 0.5%float.

(** A mover with the fixed cap 5, inertia one half, and cognition and
    social weights 1. *)
Definition cappedMover : SimpleMover :=
  mkSimpleMover 1 1 5 (Some halves) (Some halves).

(** The same mover without a fixed cap. *)
Definition freeMover : SimpleMover :=
  mkSimpleMover 1 1 0 (Some halves) (Some halves).

(** A particle at the origin with velocity (12, 8) whose best point,
    the best of the swarm it forms alone, is (0, 1). *)
Definition fastParticle : Particle :=
  mkParticle 0 (mkPoint [0%float; 0%float] 7) [12%float; 8%float]
             (mkPoint [0%float; 1%float] 1).

(** A particle whose personal best was never set: the zero [Point]. *)
Definition freshParticle : Particle :=
  mkParticle 0 (mkPoint [1%float] 0) [0%float] zeroPoint.

(** A particle whose personal best has the value 1. *)
Definition settledParticle : Particle :=
  mkParticle 0 (mkPoint [1%float] 1) [0%float] (mkPoint [1%float] 1).

End Fixtures.

(** ** The serial evaluator *)

Module SerialFacts.
Import Optim Spec Fixtures.

Section Loop.
Context {O : Type} `{Objectiver O}.

Lemma SerialEvaler_loop_length (ev : SerialEvaler) points :
  ∀ i results (obj : O),
    length (SerialEvaler_loop ev i points results obj).1.1 = length results.
Proof.
  induction points as [|p rest IH]; intros i results obj; simpl; [done|].
  destruct (Objective obj (Pos p)) as [[val err] obj'].
  destruct err as [e|]; [destruct (ContinueOnErr ev); simpl|];
    rewrite ?IH, ?length_insert; done.
Qed.

(** The slice returned by [SerialEvaler.Eval] always has the length of
    the input, whatever happens in the loop. *)
Lemma SerialEvaler_Eval_length (ev : SerialEvaler) (obj : O) points :
  length (SerialEvaler_Eval ev obj points).1.1 = length points.
Proof.
  unfold SerialEvaler_Eval.
  pose proof (SerialEvaler_loop_length ev points 0
                (replicate (length points) zeroPoint) obj) as Hlen.
  destruct (SerialEvaler_loop _ _ _ _ _) as [res obj']; simpl in *.
  by rewrite Hlen, length_replicate.
Qed.

(** With continue-on-error, the loop fills the slots one by one with
    the evaluated points and ends with the error [nil]. *)
Lemma SerialEvaler_loop_continue (ev : SerialEvaler) :
  ContinueOnErr ev = true →
  ∀ points done (obj : O),
    SerialEvaler_loop ev (length done) points
      (done ++ replicate (length points) zeroPoint) obj
    = ((done ++ (evalEach obj points).1, None), (evalEach obj points).2).
Proof.
  intros Hcont. induction points as [|p rest IH]; intros done obj; simpl.
  - done.
  - destruct (Objective obj (Pos p)) as [[val err] obj'].
    rewrite insert_app_r_alt, Nat.sub_diag by lia. simpl.
    rewrite Hcont. simpl.
    specialize (IH (done ++ [mkPoint (Pos p) val]) obj').
    rewrite length_app, Nat.add_1_r, <- app_assoc in IH. simpl in IH.
    destruct (evalEach obj' rest) as [results obj''].
    rewrite <- app_assoc in IH. simpl in *.
    by destruct err.
Qed.

End Loop.

(** C1.  Serial evaluator, continue-on-error disabled, three points of
    which the second fails: [Eval] returns the propagated error and a
    slice of three entries, namely the first point evaluated, the failing
    point with the value +Inf, and the zero point for the third, which
    was never evaluated.  The claim asks for exactly one entry.  Whatever
    the objective and the batch, the slice returned has one entry per
    input point. *)
Theorem serial_abort_returns_placeholders :
  (Eval (mkSerialEvaler false) failsOnSecond threePoints).1
  = ([mkPoint [1%float] 1; mkPoint [2%float] infinity; zeroPoint],
     Some "second point failed"%string)
  ∧ (∀ {O} `{Objectiver O} (ev : SerialEvaler) (obj : O) (points : list Point),
       length (Eval ev obj points).1.1 = length points).
Proof.
  split; [reflexivity|].
  intros O HO ev obj points. apply SerialEvaler_Eval_length.
Qed.

(** C2, as stated, fails: with continue-on-error enabled and the second
    and third evaluation failing, the last failure is the third one, yet
    the error returned is [nil]. *)
Lemma serial_continue_loses_last_failure :
  lastFailure failsOnSecondAndThird threePoints None
    = Some "third point failed"%string
  ∧ (Eval (mkSerialEvaler true) failsOnSecondAndThird threePoints).1.2 = None
  ∧ length (Eval (mkSerialEvaler true) failsOnSecondAndThird threePoints).1.1
    = 3%nat.
Proof. repeat split; reflexivity. Qed.

(** C2, amended.  With continue-on-error enabled, [Eval] evaluates every
    input point in order and returns one result per input point; the
    error it returns is always [nil], whichever evaluations failed. *)
Theorem serial_continue_evaluates_all {O} `{Objectiver O}
    (ev : SerialEvaler) (obj : O) (points : list Point) :
  ContinueOnErr ev = true →
  Eval ev obj points
    = (((evalEach obj points).1, None), (ev, (evalEach obj points).2))
  ∧ length (Eval ev obj points).1.1 = length points.
Proof.
  intros Hcont. split; [|apply SerialEvaler_Eval_length].
  unfold Eval, SerialEvaler_Evaler, SerialEvaler_Eval.
  by rewrite (SerialEvaler_loop_continue ev Hcont points [] obj).
Qed.

Lemma serial_continue_evaluates_all_witness :
  Eval (mkSerialEvaler true) failsOnSecondAndThird threePoints
    = (((evalEach failsOnSecondAndThird threePoints).1, None),
       (mkSerialEvaler true, (evalEach failsOnSecondAndThird threePoints).2))
  ∧ length (Eval (mkSerialEvaler true) failsOnSecondAndThird threePoints).1.1
    = length threePoints.
Proof.
  apply (serial_continue_evaluates_all (mkSerialEvaler true)
           failsOnSecondAndThird threePoints).
  reflexivity.
Defined.

End SerialFacts.

(** ** The caching evaluator *)

Module CacheFacts.
Import Optim Spec Fixtures.

Section Cache.
Context `{Sha1}.

(** The digest is a function of the coordinates alone. *)
Lemma hashPoint_Pos (p q : Point) : Pos p = Pos q → hashPoint p = hashPoint q.
Proof. unfold hashPoint. by intros ->. Qed.

(** The first loop splits the batch into the cached points, answered
    from the cache, and the others, in input order. *)
Lemma CacheEvaler_lookup_split (c : gmap (list Z) float) points :
  ∀ results newp,
    CacheEvaler_lookup c points results newp
    = (results ++ cacheHits c points, newp ++ cacheMisses c points).
Proof.
  unfold cacheHits, cacheMisses.
  induction points as [|p rest IH]; intros results newp; simpl.
  - by rewrite !app_nil_r.
  - rewrite filter_cons.
    case_decide as Hc.
    + rewrite Hc, IH. simpl. by rewrite <- app_assoc.
    + destruct (c !! hashPoint p) as [val|]; [|done].
      rewrite IH. simpl. by rewrite <- app_assoc.
Qed.

(** [Eval] of the caching evaluator calls the underlying evaluator
    once, on the points that are not cached, and on nothing else. *)
Lemma CacheEvaler_Eval_unfold {E} `{Evaler E} {O} `{Objectiver O}
    (cev : CacheEvaler E) (obj : O) points :
  let under := Eval (ev cev) obj (cacheMisses (cache cev) points) in
  Eval cev obj points
  = ((cacheHits (cache cev) points ++ under.1.1, under.1.2),
     (mkCacheEvaler under.2.1 (CacheEvaler_store (cache cev) under.1.1),
      under.2.2)).
Proof.
  unfold Eval at 2, CacheEvaler_Evaler, CacheEvaler_Eval.
  rewrite CacheEvaler_lookup_split. simpl.
  by destruct (Eval (ev cev) obj _) as [[newresults err] [inner obj']].
Qed.

Lemma CacheEvaler_store_snoc (c : gmap (list Z) float) rs q :
  CacheEvaler_store c (rs ++ [q])
  = <[hashPoint q := Val q]> (CacheEvaler_store c rs).
Proof. unfold CacheEvaler_store. by rewrite foldl_snoc. Qed.

(** A digest that no returned point has keeps its entry. *)
Lemma CacheEvaler_store_other (c : gmap (list Z) float) rs k :
  (∀ q, q ∈ rs → hashPoint q ≠ k) →
  CacheEvaler_store c rs !! k = c !! k.
Proof.
  induction rs as [|q rs IH] using rev_ind; intros Hk; [done|].
  rewrite CacheEvaler_store_snoc, lookup_insert_ne.
  - apply IH. intros q' Hq'. apply Hk, elem_of_app. by left.
  - apply Hk, elem_of_app. right. by apply list_elem_of_singleton.
Qed.

(** Every returned point has its digest in the cache afterwards, with
    the value of the last returned point of that digest. *)
Lemma CacheEvaler_store_elem (c : gmap (list Z) float) rs q :
  q ∈ rs →
  ∃ q', q' ∈ rs ∧ hashPoint q' = hashPoint q
        ∧ CacheEvaler_store c rs !! hashPoint q = Some (Val q').
Proof.
  induction rs as [|r rs IH] using rev_ind; intros Hq.
  { by apply elem_of_nil in Hq. }
  rewrite CacheEvaler_store_snoc.
  destruct (decide (hashPoint r = hashPoint q)) as [Heq|Hne].
  - exists r. rewrite <- Heq, lookup_insert_eq. split; [|done].
    apply elem_of_app. right. by apply list_elem_of_singleton.
  - rewrite lookup_insert_ne by done.
    assert (q ∈ rs) as Hin.
    { apply elem_of_app in Hq as [Hq|Hq]; [done|].
      apply list_elem_of_singleton in Hq. by subst. }
    destruct (IH Hin) as (q' & Hq' & Hh & Hl).
    exists q'. split; [|done]. apply elem_of_app. by left.
Qed.

(** A batch of one cached point: answered from the cache, nothing left
    for the underlying evaluator. *)
Lemma cache_hit_single (c : gmap (list Z) float) (p : Point) v :
  c !! hashPoint p = Some v →
  cacheHits c [p] = [mkPoint (Pos p) v] ∧ cacheMisses c [p] = [].
Proof.
  intros Hc. unfold cacheHits, cacheMisses.
  rewrite filter_cons, decide_False by (by rewrite Hc).
  simpl. by rewrite Hc.
Qed.

Lemma cache_miss_single (c : gmap (list Z) float) (p : Point) :
  c !! hashPoint p = None →
  cacheHits c [p] = [] ∧ cacheMisses c [p] = [p].
Proof.
  intros Hc. unfold cacheHits, cacheMisses.
  rewrite filter_cons, decide_True by done.
  simpl. by rewrite Hc.
Qed.

(** The serial evaluator on a batch of one point and on no point. *)
Lemma SerialEvaler_Eval_single {O} `{Objectiver O} (se : SerialEvaler)
    (obj : O) (p : Point) :
  let r := Objective obj (Pos p) in
  (Eval se obj [p]).1.1 = [mkPoint (Pos p) r.1.1]
  ∧ (Eval se obj [p]).2 = (se, r.2).
Proof.
  unfold Eval, SerialEvaler_Evaler, SerialEvaler_Eval. simpl.
  destruct (Objective obj (Pos p)) as [[val err] obj'].
  by destruct err, (ContinueOnErr se).
Qed.

Lemma SerialEvaler_Eval_nil {O} `{Objectiver O} (se : SerialEvaler) (obj : O) :
  Eval se obj [] = (([], None), (se, obj)).
Proof. reflexivity. Qed.

Lemma ObjectivePrinter_Count {O} `{Objectiver O} (op : ObjectivePrinter O) v :
  Count (Objective op v).2 = Count op + 1.
Proof.
  unfold Objective at 1, ObjectivePrinter_Objectiver.
  by destruct (Objective (op_Objectiver op) v) as [[val err] inner].
Qed.


(** C9.  When the underlying evaluator returns results together with
    an error, the caching evaluator passes the error on and stores
    every returned point under its digest all the same: the cache
    afterwards is the old one with the returned points written to it,
    whatever the error.  A later batch made of such a point is
    answered from the cache: its result is the stored value, followed
    by what the underlying evaluator makes of an empty batch, which for
    an evaluator that returns nothing and no error on no point is no
    error. *)
Theorem cache_stores_results_despite_error {E} `{Evaler E} {O} `{Objectiver O}
    (cev : CacheEvaler E) (obj : O) (points : list Point) (e : error)
    (q : Point) :
  let under := Eval (ev cev) obj (cacheMisses (cache cev) points) in
  let after := (Eval cev obj points).2.1 in
  under.1.2 = Some e → q ∈ under.1.1 →
  (Eval cev obj points).1.2 = Some e
  ∧ cache after = CacheEvaler_store (cache cev) under.1.1
  ∧ (∃ q', q' ∈ under.1.1 ∧ hashPoint q' = hashPoint q
           ∧ cache after !! hashPoint q = Some (Val q'))
  ∧ (∀ (v : float) (r : Point) (obj' : O),
       cache after !! hashPoint q = Some v → Pos r = Pos q →
       let empty := Eval (ev after) obj' [] in
       (Eval after obj' [r]).1 = (mkPoint (Pos r) v :: empty.1.1, empty.1.2)
       ∧ (empty.1 = ([], None) →
          (Eval after obj' [r]).1 = ([mkPoint (Pos r) v], None))).
Proof.
  intros under after Herr Hq. subst after.
  rewrite CacheEvaler_Eval_unfold. cbv zeta. cbn [fst snd cache]. fold under.
  split; [done|]. split; [done|]. split.
  - by apply CacheEvaler_store_elem.
  - intros v r obj' Hv Hpos.
    set (empty := Eval under.2.1 obj' []).
    rewrite <- (hashPoint_Pos r q Hpos) in Hv.
    assert ((Eval (mkCacheEvaler under.2.1
                     (CacheEvaler_store (cache cev) under.1.1)) obj' [r]).1
            = (mkPoint (Pos r) v :: empty.1.1, empty.1.2)) as Hlater.
    { rewrite CacheEvaler_Eval_unfold. cbv zeta. cbn [fst snd cache ev].
      by destruct (cache_hit_single _ r _ Hv) as [-> ->]. }
    split; [done|]. intros Hempty. cbn [ev] in Hempty.
    rewrite Hlater. fold empty in Hempty. by rewrite Hempty.
Qed.

End Cache.

#[local] Existing Instance plainDigest.


Lemma cache_stores_results_despite_error_witness :
  let cev := NewCacheEvaler (mkSerialEvaler false) 1 in
  let q := mkPoint [2%float] infinity in
  let after := (Eval cev failsOnSecond threePoints).2.1 in
  (Eval (ev cev) failsOnSecond threePoints).1
    = ([mkPoint [1%float] 1; q; zeroPoint], Some "second point failed"%string)
  ∧ (Eval cev failsOnSecond threePoints).1.2 = Some "second point failed"%string
  ∧ cache after !! hashPoint q = Some infinity
  ∧ (Eval after failsOnSecond [mkPoint [2%float] 0]).1 = ([q], None).
Proof.
  intros cev q after.
  assert (q ∈ (Eval (ev cev) failsOnSecond (cacheMisses (cache cev) threePoints)).1.1)
    as Hq.
  { apply list_elem_of_further, list_elem_of_here. }
  assert (cache after !! hashPoint q = Some infinity) as Hstored.
  { vm_compute. reflexivity. }
  assert ((Eval (ev cev) failsOnSecond (cacheMisses (cache cev) threePoints)).1.2
          = Some "second point failed"%string) as Hfail.
  { vm_compute. reflexivity. }
  destruct (cache_stores_results_despite_error cev failsOnSecond threePoints
              "second point failed"%string q Hfail Hq)
    as (Herr & _ & _ & Hlater).
  destruct (Hlater infinity (mkPoint [2%float] 0) failsOnSecond Hstored eq_refl)
    as [_ Hhit].
  split; [reflexivity|]. split; [exact Herr|].
  split; [exact Hstored | exact (Hhit eq_refl)].
Defined.

End CacheFacts.

(** ** Grid snapping *)

Module MeshFacts.
Import Mesh Spec Fixtures.

#[local] Existing Instance noMatrices.

(** C3.  Unbounded mesh of step 2 without basis, origin at 0, the point
    3.5: the integer part of 3.5/2 is 1 and the remainder 1.5 exceeds
    half the step, so the nearest grid multiple is 4, which is what the
    claim's formula gives; [Nearest] returns 2, because the loop compares
    the fractional part of 3.5/2 divided once more by the step, 0.375,
    with one half. *)
Theorem nearest_compares_scaled_fraction :
  Nearest (grid 2 []) [3.5%float] = Some ([2%float], grid 2 [0%float])
  ∧ nearestMultiple 2 3.5 = 4%float
  ∧ snap 2 3.5 = 2%float.
Proof. repeat split; reflexivity. Qed.

(** C6.  Unbounded mesh of step 3 without basis, origin at 1.1: the
    point 5.2 snaps to the grid point 1.1 + 3, and that grid point snaps
    to 1.1, almost a whole step away; 4.1 - 1.1 is just below 3 in binary64, the
    quotient by the step is truncated to 0, and the fraction close to 1
    is divided by the step before it is compared with one half.  The
    integer mesh over a grid of step 1.9 does the same without any
    rounding error: 11.4 goes to 11, and 11 goes to 10. *)
Theorem nearest_twice_moves_point :
  Nearest (grid 3 [1.1%float]) [5.2%float]
    = Some ([4.0999999999999996%float], grid 3 [1.1%float])
  ∧ Nearest (grid 3 [1.1%float]) [4.0999999999999996%float]
    = Some ([1.1000000000000001%float], grid 3 [1.1%float])
  ∧ (2.9 <? 4.0999999999999996 - 1.1000000000000001)%float = true
  ∧ Nearest (mkInteger (grid 1.9 [0%float])) [11.4%float]
    = Some ([11%float], mkInteger (grid 1.9 [0%float]))
  ∧ Nearest (mkInteger (grid 1.9 [0%float])) [11%float]
    = Some ([10%float], mkInteger (grid 1.9 [0%float])).
Proof. repeat split; reflexivity. Qed.

(** C7.  Bounded mesh with lower bound 3.5 and upper bound 10 around a
    grid of step 2: the point 0 is clamped to 3.5 and snapped to 2, which
    is below lower - step/2 = 2.5. *)
Theorem bounded_nearest_leaves_bounds :
  NewBounded (grid 2 []) [3.5%float] [10%float]
    = Some (mkBounded [3.5%float] [10%float] (grid 2 [0%float]))
  ∧ Nearest (mkBounded [3.5%float] [10%float] (grid 2 [0%float])) [0%float]
    = Some ([2%float], mkBounded [3.5%float] [10%float] (grid 2 [0%float]))
  ∧ (2 <? 3.5 - 2 / 2)%float = true.
Proof. repeat split; reflexivity. Qed.

End MeshFacts.

(** ** The order of binary64 values *)

Module FloatOrder.

Lemma SFcompare_antisym (a b : spec_float) (c : comparison) :
  SFcompare a b = Some c → SFcompare b a = Some (CompOpp c).
Proof.
  destruct a as [sa|sa| |sa ma ea], b as [sb|sb| |sb mb eb]; simpl;
    try discriminate; try destruct sa; try destruct sb;
    intros [= <-]; try reflexivity.
  - rewrite (Z.compare_antisym ea eb).
    destruct (ea ?= eb); simpl; try reflexivity.
    by rewrite (Pos.compare_cont_antisym ma mb Eq).
  - rewrite (Z.compare_antisym ea eb).
    destruct (ea ?= eb); simpl; try reflexivity.
    by rewrite (Pos.compare_cont_antisym ma mb Eq).
Qed.

Lemma SFcompare_refl (a : spec_float) :
  a ≠ S754_nan → SFcompare a a = Some Eq.
Proof.
  destruct a as [s|s| |s m e]; simpl; intros Ha; try done.
  - by destruct s.
  - rewrite Z.compare_refl.
    change (Pos.compare_cont Eq m m) with (Pos.compare m m).
    rewrite Pos.compare_refl. by destruct s.
Qed.

Lemma SFcompare_is_Some (a b : spec_float) :
  a ≠ S754_nan → b ≠ S754_nan → is_Some (SFcompare a b).
Proof. destruct a, b; simpl; intros Ha Hb; done || eauto. Qed.

(** A value is not NaN exactly when it equals itself. *)
Lemma not_nan_Prim2SF (x : float) : is_nan x = false → Prim2SF x ≠ S754_nan.
Proof.
  unfold is_nan. rewrite FloatAxioms.eqb_spec. unfold SFeqb. intros Hx Hnan.
  by rewrite Hnan in Hx.
Qed.

Lemma ltb_leb (x y : float) : (x <? y)%float = true → (x <=? y)%float = true.
Proof.
  rewrite FloatAxioms.ltb_spec, FloatAxioms.leb_spec. unfold SFltb, SFleb.
  by destruct (SFcompare _ _) as [[]|].
Qed.

Lemma leb_refl (x : float) : is_nan x = false → (x <=? x)%float = true.
Proof.
  intros Hx. rewrite FloatAxioms.leb_spec. unfold SFleb.
  by rewrite SFcompare_refl by by apply not_nan_Prim2SF.
Qed.

Lemma not_ltb_leb (x y : float) :
  is_nan x = false → is_nan y = false →
  (x <? y)%float = false → (y <=? x)%float = true.
Proof.
  intros Hx%not_nan_Prim2SF Hy%not_nan_Prim2SF.
  rewrite FloatAxioms.ltb_spec, FloatAxioms.leb_spec. unfold SFltb, SFleb.
  destruct (SFcompare_is_Some _ _ Hx Hy) as [c Hc].
  rewrite Hc, (SFcompare_antisym _ _ _ Hc). by destruct c.
Qed.

Lemma eqb_not_ltb (x y : float) :
  (x =? y)%float = true → (y <? x)%float = false.
Proof.
  rewrite FloatAxioms.eqb_spec, FloatAxioms.ltb_spec. unfold SFeqb, SFltb.
  destruct (SFcompare (Prim2SF x) (Prim2SF y)) as [c|] eqn:Hc; [|done].
  rewrite (SFcompare_antisym _ _ _ Hc). by destruct c.
Qed.

Lemma ltb_not_eqb (x y : float) :
  (y <? x)%float = true → (x =? y)%float = false.
Proof.
  intros Hlt. destruct (x =? y)%float eqn:Heq; [|done].
  apply eqb_not_ltb in Heq. congruence.
Qed.

End FloatOrder.

(** ** Particles, the default mover and the iterator *)

Module SwarmFacts.
Import Optim Pswarm Spec Fixtures FloatOrder.

(** *** [Particle.Update] *)

Lemma Update_Val (p : Particle) (newp : Point) :
  Val (p_Point (Update p newp)) = Val newp.
Proof. unfold Update. simpl. by destruct (_ || _). Qed.

(** The personal best after an update is the new point or the old best. *)
Lemma Update_Best (p : Particle) (newp : Point) :
  Best (Update p newp)
  = if (Val newp <? Val (Best p))%float || (Len (Best p) =? 0)%nat
    then newp else Best p.
Proof. unfold Update. simpl. by destruct (_ || _). Qed.

(** A personal best that is set and is not NaN stays so when the new
    points have coordinates and values that are not NaN. *)
Lemma Update_keeps_best_set (p : Particle) (newps : list Point) :
  is_nan (Val (Best p)) = false → Len (Best p) ≠ 0%nat →
  Forall (fun q => is_nan (Val q) = false ∧ Len q ≠ 0%nat) newps →
  is_nan (Val (Best (foldl Update p newps))) = false
  ∧ Len (Best (foldl Update p newps)) ≠ 0%nat.
Proof.
  intros Hnan Hlen Hall. revert p Hnan Hlen.
  induction Hall as [|q newps [Hq1 Hq2] _ IH]; intros p Hnan Hlen; [done|].
  simpl. apply IH; rewrite Update_Best; by destruct (_ || _).
Qed.




(** *** [NewIterator] *)

(** C10.  Whatever evaluator is passed to [NewIterator], [nil] or not,
    the evaluator of the iterator it returns is a fresh serial evaluator
    (continue-on-error disabled). *)
Theorem NewIterator_ignores_evaler `{MathRand} (pop : Population)
    (e : option EvalerValue) (m : option MoverValue) :
  it_Evaler (NewIterator pop e m)
  = evalerValue SerialEvaler (mkSerialEvaler false).
Proof. reflexivity. Qed.

(** *** The velocity loop of [SimpleMover.Move] *)

Section Velocity.
Variables (mv : SimpleMover) (vmax w1 w2 : float) (best p : Point).

(** Without a fixed cap above 0 the clamp leaves the velocity alone. *)
Lemma clamp_no_cap (vel : list float) :
  (0 <? Vmax mv)%float = false → clamp mv vmax vel = vel.
Proof. unfold clamp. by intros ->. Qed.

(** When the clamp changes the velocity, a fixed cap above 0 is
    configured, the speed exceeds it, and every component is
    multiplied by the cap over the speed. *)
Lemma clamp_rescales (vel : list float) :
  clamp mv vmax vel ≠ vel →
  (0 <? Vmax mv)%float = true ∧ (Vmax mv <? Speed vel)%float = true
  ∧ clamp mv vmax vel = map (fun v => (v * (vmax / Speed vel))%float) vel.
Proof.
  unfold clamp.
  destruct (0 <? Vmax mv)%float, (Vmax mv <? Speed vel)%float; simpl; done.
Qed.

(** Without a fixed cap the loop computes every component from the
    velocity the particle had before: [done] are the components
    already written, [rest] are still the old ones. *)
Lemma velLoop_no_cap (seq : nat → float) (pos0 : nat) :
  (0 <? Vmax mv)%float = false →
  ∀ (rest done : list float),
    velLoop mv vmax w1 w2 best p (length rest) (length done) (done ++ rest)
            (mkSource seq (pos0 + length done))
    = (fun new => (done ++ new,
                   mkSource seq (pos0 + length done + length rest)))
        <$> fullVelocity mv w1 w2 best p (mkSource seq pos0)
                         (length done) rest.
Proof.
  intros Hcap. induction rest as [|currv rest IH]; intros done; simpl.
  - by rewrite app_nil_r, Nat.add_0_r.
  - rewrite list_lookup_middle by done. simpl.
    destruct (newVel mv w1 w2 best p _ currv (length done)) as [v|];
      simpl; [|done].
    rewrite clamp_no_cap by done.
    rewrite insert_app_r_alt, Nat.sub_diag by lia. simpl.
    specialize (IH (done ++ [v])).
    rewrite length_app, <- app_assoc in IH. simpl in IH.
    rewrite Nat.add_1_r, Nat.add_succ_r in IH. rewrite IH.
    destruct (fullVelocity _ _ _ _ _ _ _ rest) as [new|]; simpl; [|done].
    by rewrite <- app_assoc, Nat.add_succ_r.
Qed.

End Velocity.

#[local] Existing Instance halvesRand.

(** C5, as stated, fails.  A swarm of one particle at the origin with
    velocity (12, 8) and best point (0, 1), inertia one half, both random
    numbers one half, cognition and social weight 1, fixed cap 5.  The
    full new velocity is (6, 5), of speed above 5, which rescaled to the
    cap is about (3.84, 3.20).  [Move] leaves the velocity (3, 3): the
    first component 6 next to the old second component 8 has speed 10,
    so both are halved at once, and the second component is then
    computed from the halved 4.  The velocity was rescaled before it was
    complete, and its speed at the end is below the cap, not equal to
    it. *)
Lemma clamp_runs_before_velocity_complete :
  snd <$> Move cappedMover [fastParticle]
    = Some [mkParticle 0 (mkPoint [3%float; 3%float] 7) [3%float; 3%float]
                       (mkPoint [0%float; 1%float] 1)]
  ∧ fullVelocity cappedMover 0.5 0.5 (Best fastParticle) (p_Point fastParticle)
                 halves 0 (Vel fastParticle)
    = Some [6%float; 5%float]
  ∧ capAfterFullUpdate cappedMover [6%float; 5%float]
    = [3.8411063979868798%float; 3.2009219983223995%float]
  ∧ (Speed [3%float; 3%float] <? Vmax cappedMover)%float = true.
Proof. repeat split; reflexivity. Qed.

(** C5, amended.  In the default mover's per-particle step the clamp is
    part of the body of the loop over the dimensions: it runs after each
    single component has been written, on the velocity as it is then,
    and the next component is computed from what it leaves.  It changes
    the velocity only when a fixed maximum speed greater than 0 is
    configured and the speed exceeds it, and then multiplies every
    component by the cap over the speed, the cap being the configured
    maximum.  With the dynamic cap (no maximum configured) the clamp is
    unreachable and the loop yields the full velocity vector of the
    update formula. *)
Theorem clamp_follows_each_component (mv : SimpleMover) (vmax w1 w2 : float)
    (best p : Point) :
  (∀ (k i : nat) (vel : list float) (inertia : Source),
      velLoop mv vmax w1 w2 best p (S k) i vel inertia
      = (currv ← vel !! i;
         v ← newVel mv w1 w2 best p (draw inertia).1 currv i;
         velLoop mv vmax w1 w2 best p k (S i)
                 (clamp mv vmax (<[i := v]> vel)) (draw inertia).2))
  ∧ (∀ vel : list float,
       clamp mv vmax vel ≠ vel →
       (0 <? Vmax mv)%float = true ∧ (Vmax mv <? Speed vel)%float = true
       ∧ clamp mv vmax vel = map (fun v => (v * (vmax / Speed vel))%float) vel)
  ∧ (∀ vel : list float,
       (0 <? Vmax mv)%float = true → velocityCap mv vel = Vmax mv)
  ∧ (∀ vel : list float,
       (Vmax mv =? 0)%float = true →
       velocityCap mv vel = (1.5 * Speed vel)%float
       ∧ (0 <? Vmax mv)%float = false)
  ∧ ((0 <? Vmax mv)%float = false →
     ∀ (vel : list float) (inertia : Source),
       velLoop mv vmax w1 w2 best p (length vel) 0 vel inertia
       = (fun new => (new, mkSource (src_seq inertia)
                                    (src_pos inertia + length vel)))
           <$> fullVelocity mv w1 w2 best p inertia 0 vel).
Proof.
  split; [|split; [|split; [|split]]].
  - intros k i vel inertia. simpl.
    destruct (vel !! i) as [currv|]; simpl; [|done].
    by destruct (newVel _ _ _ _ _ _ _ _).
  - apply clamp_rescales.
  - intros vel Hcap. unfold velocityCap.
    by rewrite (ltb_not_eqb _ _ Hcap).
  - intros vel Hzero. unfold velocityCap. rewrite Hzero.
    split; [done|]. by apply eqb_not_ltb.
  - intros Hcap vel [seq pos0].
    pose proof (velLoop_no_cap mv vmax w1 w2 best p seq pos0 Hcap vel [])
      as Hloop.
    simpl in Hloop. rewrite Nat.add_0_r in Hloop. exact Hloop.
Qed.

Lemma clamp_follows_each_component_witness :
  clamp cappedMover 5 [6%float; 8%float] = [3%float; 4%float]
  ∧ velocityCap cappedMover [12%float; 8%float] = 5%float
  ∧ velocityCap freeMover [12%float; 8%float] = (1.5 * Speed [12%float; 8%float])%float
  ∧ velLoop freeMover 0 0.5 0.5 (Best fastParticle) (p_Point fastParticle)
            2 0 [12%float; 8%float] halves
    = Some ([6%float; 5%float], mkSource (fun _ => 0.5%float) 2).
Proof.
  pose proof (clamp_follows_each_component cappedMover 5 0.5 0.5
                (Best fastParticle) (p_Point fastParticle))
    as (_ & Hclamp & Hcap & _ & _).
  pose proof (clamp_follows_each_component freeMover 0 0.5 0.5
                (Best fastParticle) (p_Point fastParticle))
    as (_ & _ & _ & Hdyn & Hfree).
  split; [|split; [|split]].
  - assert (clamp cappedMover 5 [6%float; 8%float] ≠ [6%float; 8%float])
      as Hne.
    { intros Heq. apply (f_equal (fun l => (default 0%float (head l) =? 3)%float)) in Heq.
      vm_compute in Heq. discriminate. }
    destruct (Hclamp _ Hne) as (_ & _ & ->). reflexivity.
  - apply Hcap. reflexivity.
  - apply Hdyn. reflexivity.
  - exact (Hfree eq_refl [12%float; 8%float] halves).
Defined.

End SwarmFacts.

(** ** More on the serial evaluator and the objectives *)

Module SerialMore.
Import Optim Spec Fixtures.

Section Loop.
Context {O : Type} `{Objectiver O}.

(** Once a failure has been seen, [lastFailure] reports one. *)
Lemma lastFailure_Some (points : list Point) :
  ∀ (obj : O) (e : error), is_Some (lastFailure obj points (Some e)).
Proof.
  induction points as [|p rest IH]; intros obj e; simpl; [by eexists|].
  destruct (Objective obj (Pos p)) as [[val err] obj'].
  destruct err; apply IH.
Qed.

(** No failure over a batch: none on its head and none on its tail. *)
Lemma lastFailure_None_cons (obj : O) (p : Point) (rest : list Point) :
  lastFailure obj (p :: rest) None = None →
  (Objective obj (Pos p)).1.2 = None
  ∧ lastFailure (Objective obj (Pos p)).2 rest None = None.
Proof.
  simpl. destruct (Objective obj (Pos p)) as [[val err] obj']. simpl.
  destruct err as [e|]; [|done].
  intros Hnone. destruct (lastFailure_Some rest obj' e) as [e' He'].
  congruence.
Qed.

(** The loop over a batch whose first failure is at [p]: the points
    before it are evaluated, the failing point is recorded with the value
    the objective reported, the slots after it are left as they were, and
    the objective is not called again. *)
Lemma SerialEvaler_loop_abort (ev : SerialEvaler) (p : Point)
    (after : list Point) :
  ContinueOnErr ev = false →
  ∀ (before done : list Point) (obj : O) (v : float) (e : error) (obj2 : O),
    lastFailure obj before None = None →
    Objective (evalEach obj before).2 (Pos p) = ((v, Some e), obj2) →
    SerialEvaler_loop ev (length done) (before ++ p :: after)
      (done ++ replicate (length (before ++ p :: after)) zeroPoint) obj
    = ((done ++ (evalEach obj before).1
          ++ mkPoint (Pos p) v :: replicate (length after) zeroPoint,
        Some e), obj2).
Proof.
  intros Hcont. induction before as [|q before IH];
    intros done obj v e obj2 Hok Hfail; simpl in *.
  - rewrite Hfail, Hcont. simpl.
    by rewrite insert_app_r_alt, Nat.sub_diag by lia.
  - apply (lastFailure_None_cons obj q before) in Hok as [Hq Hrest].
    destruct (Objective obj (Pos q)) as [[val err] obj'].
    simpl in Hq, Hrest. subst err.
    rewrite insert_app_r_alt, Nat.sub_diag by lia. simpl.
    destruct (evalEach obj' before) as [rs obj''] eqn:Hrs. simpl in *.
    specialize (IH (done ++ [mkPoint (Pos q) val]) obj' v e obj2 Hrest).
    rewrite Hrs in IH. simpl in IH. specialize (IH Hfail).
    rewrite length_app, Nat.add_1_r, <- !app_assoc in IH. simpl in IH.
    exact IH.
Qed.

(** The loop over a batch without failure, whatever the flag. *)
Lemma SerialEvaler_loop_ok (ev : SerialEvaler) :
  ∀ (points done : list Point) (obj : O),
    lastFailure obj points None = None →
    SerialEvaler_loop ev (length done) points
      (done ++ replicate (length points) zeroPoint) obj
    = ((done ++ (evalEach obj points).1, None), (evalEach obj points).2).
Proof.
  induction points as [|p rest IH]; intros done obj Hok; simpl.
  - done.
  - apply (lastFailure_None_cons obj p rest) in Hok as [Hp Hrest].
    destruct (Objective obj (Pos p)) as [[val err] obj'].
    simpl in Hp, Hrest. subst err.
    rewrite insert_app_r_alt, Nat.sub_diag by lia. simpl.
    specialize (IH (done ++ [mkPoint (Pos p) val]) obj' Hrest).
    rewrite length_app, Nat.add_1_r, <- app_assoc in IH. simpl in IH.
    destruct (evalEach obj' rest) as [results obj''].
    by rewrite <- app_assoc in IH.
Qed.

(** The serial evaluator on a batch whose first failure is at [p]. *)
Lemma SerialEvaler_Eval_abort (ev : SerialEvaler) (obj : O)
    (before : list Point) (p : Point) (after : list Point) (v : float)
    (e : error) (obj2 : O) :
  ContinueOnErr ev = false →
  lastFailure obj before None = None →
  Objective (evalEach obj before).2 (Pos p) = ((v, Some e), obj2) →
  Eval ev obj (before ++ p :: after)
  = (((evalEach obj before).1
        ++ mkPoint (Pos p) v :: replicate (length after) zeroPoint,
      Some e), (ev, obj2)).
Proof.
  intros Hcont Hok Hfail.
  unfold Eval, SerialEvaler_Evaler, SerialEvaler_Eval.
  pose proof (SerialEvaler_loop_abort ev p after Hcont before [] obj v e obj2
                Hok Hfail) as Hloop.
  simpl in Hloop. by rewrite Hloop.
Qed.

Lemma SerialEvaler_Eval_ok (ev : SerialEvaler) (obj : O) (points : list Point) :
  lastFailure obj points None = None →
  Eval ev obj points
  = (((evalEach obj points).1, None), (ev, (evalEach obj points).2)).
Proof.
  intros Hok. unfold Eval, SerialEvaler_Evaler, SerialEvaler_Eval.
  pose proof (SerialEvaler_loop_ok ev points [] obj Hok) as Hloop.
  simpl in Hloop. by rewrite Hloop.
Qed.

(** The coordinates of the evaluated points are those of the input. *)
Lemma evalEach_Pos (points : list Point) :
  ∀ obj : O, Pos <$> (evalEach obj points).1 = Pos <$> points.
Proof.
  induction points as [|p rest IH]; intros obj; simpl; [done|].
  destruct (Objective obj (Pos p)) as [[val err] obj'].
  specialize (IH obj'). destruct (evalEach obj' rest) as [rs obj''].
  simpl in *. by f_equal.
Qed.

(** The loop run on an [ObjectivePrinter] against the loop run on the
    objective it wraps. *)
Lemma SerialEvaler_loop_printer (ev : SerialEvaler) :
  ∀ (points : list Point) (i : nat) (results : list Point)
    (op : ObjectivePrinter O),
    let r := SerialEvaler_loop ev i points results op in
    let r0 := SerialEvaler_loop ev i points results (op_Objectiver op) in
    r.1 = r0.1 ∧ op_Objectiver r.2 = r0.2
    ∧ Count op ≤ Count r.2 ≤ Count op + Z.of_nat (length points)
    ∧ (ContinueOnErr ev = true ∨ r.1.2 = None →
       Count r.2 = Count op + Z.of_nat (length points))
    ∧ Z.of_nat (length (Printed r.2))
      = Z.of_nat (length (Printed op)) + (Count r.2 - Count op).
Proof.
  induction points as [|p rest IH]; intros i results op; cbn zeta.
  - simpl. repeat split; lia.
  - destruct (Objective (op_Objectiver op) (Pos p)) as [[val err] inner]
      eqn:Hinner.
    set (op' := mkObjectivePrinter inner (Count op + 1)
                  ((Count op + 1, Pos p, val) :: Printed op)).
    assert (Objective op (Pos p) = (val, err, op')) as Hop.
    { unfold Objective at 1, ObjectivePrinter_Objectiver. by rewrite Hinner. }
    cbn [SerialEvaler_loop]. rewrite Hop, Hinner.
    specialize (IH (S i) (<[i:=mkPoint (Pos p) val]> results) op').
    cbn zeta in IH. cbn [op_Objectiver Count Printed op'] in IH.
    destruct IH as (IH1 & IH2 & IH3 & IH4 & IH5).
    assert (Z.of_nat (length (p :: rest)) = Z.of_nat (length rest) + 1) as ->.
    { simpl. lia. }
    simpl length in IH5.
    destruct err as [e|]; [destruct (ContinueOnErr ev) eqn:Hcont|]; simpl.
    + split_and!; try done; try lia;
        try (intros _; rewrite IH4; [lia|by left]).
    + split_and!; try done; try lia; try (intros [Hc|Hc]; done).
    + split_and!; try done; try lia;
        try (intros Hc; rewrite IH4; [lia|done]).
Qed.

End Loop.

(** X1.  Serial evaluator, continue-on-error disabled, a batch whose first
    failure is at the point [p]: [Eval] returns the error of [p]; the slice
    holds the points before [p], evaluated, then [p] with the value the
    objective reported for it, then one zero [Point] for every point after
    [p]; the objective is left as the failing call left it, so no point
    after [p] is evaluated. *)
Theorem serial_stops_at_first_failure {O} `{Objectiver O} (ev : SerialEvaler)
    (obj : O) (before : list Point) (p : Point) (after : list Point)
    (v : float) (e : error) (obj2 : O) :
  ContinueOnErr ev = false →
  lastFailure obj before None = None →
  Objective (evalEach obj before).2 (Pos p) = ((v, Some e), obj2) →
  Eval ev obj (before ++ p :: after)
  = (((evalEach obj before).1
        ++ mkPoint (Pos p) v :: replicate (length after) zeroPoint,
      Some e), (ev, obj2)).
Proof. apply SerialEvaler_Eval_abort. Qed.

Lemma serial_stops_at_first_failure_witness :
  Eval (mkSerialEvaler false) failsOnSecondAndThird
       ([mkPoint [1%float] 0] ++ mkPoint [2%float] 0 :: [mkPoint [3%float] 0])
  = (((evalEach failsOnSecondAndThird [mkPoint [1%float] 0]).1
        ++ mkPoint [2%float] infinity :: replicate 1 zeroPoint,
      Some "second point failed"%string),
     (mkSerialEvaler false, failsOnSecondAndThird)).
Proof.
  apply (serial_stops_at_first_failure (mkSerialEvaler false)
           failsOnSecondAndThird [mkPoint [1%float] 0] (mkPoint [2%float] 0)
           [mkPoint [3%float] 0]); reflexivity.
Defined.

(** X2.  When no evaluation of the batch fails, the serial evaluator
    returns every point evaluated, in input order, and the error [nil],
    whether continue-on-error is set or not. *)
Theorem serial_without_failure {O} `{Objectiver O} (ev : SerialEvaler)
    (obj : O) (points : list Point) :
  lastFailure obj points None = None →
  Eval ev obj points
  = (((evalEach obj points).1, None), (ev, (evalEach obj points).2))
  ∧ Pos <$> (Eval ev obj points).1.1 = Pos <$> points.
Proof.
  intros Hok. rewrite (SerialEvaler_Eval_ok ev obj points Hok).
  split; [done|]. apply evalEach_Pos.
Qed.

Lemma serial_without_failure_witness :
  Eval (mkSerialEvaler false) failsOnSecond
       [mkPoint [1%float] 0; mkPoint [3%float] 0]
  = (((evalEach failsOnSecond [mkPoint [1%float] 0; mkPoint [3%float] 0]).1,
      None),
     (mkSerialEvaler false,
      (evalEach failsOnSecond [mkPoint [1%float] 0; mkPoint [3%float] 0]).2))
  ∧ Pos <$> (Eval (mkSerialEvaler false) failsOnSecond
                  [mkPoint [1%float] 0; mkPoint [3%float] 0]).1.1
    = Pos <$> [mkPoint [1%float] 0; mkPoint [3%float] 0].
Proof.
  apply (serial_without_failure (mkSerialEvaler false) failsOnSecond
           [mkPoint [1%float] 0; mkPoint [3%float] 0]).
  reflexivity.
Defined.

(** X3.  A [SimpleObjectiver] never fails: over it the serial evaluator
    returns, with either setting of the flag, the input points with the
    values of the function, in input order, and the error [nil]. *)
Theorem serial_over_simple_objectiver (ev : SerialEvaler)
    (so : SimpleObjectiver) (points : list Point) :
  Eval ev so points
  = ((map (fun p => mkPoint (Pos p) (so (Pos p))) points, None), (ev, so)).
Proof.
  assert (∀ pts (last : option error), lastFailure so pts last = last) as Hlast.
  { induction pts as [|p rest IH]; intros last; simpl; [done|]. apply IH. }
  assert (∀ pts, evalEach so pts
                 = (map (fun p => mkPoint (Pos p) (so (Pos p))) pts, so)) as Hall.
  { induction pts as [|p rest IH]; simpl; [done|]. by rewrite IH. }
  rewrite (SerialEvaler_Eval_ok ev so points (Hlast points None)).
  by rewrite Hall.
Qed.


End SerialMore.

(** ** More on the caching evaluator *)

Module CacheMore.
Import Optim Spec Fixtures CacheFacts SerialMore.

Section Cache.
Context `{Sha1}.

(** Writing returned points to the cache removes no entry. *)
Lemma CacheEvaler_store_is_Some (c : gmap (list Z) float) rs k :
  is_Some (c !! k) → is_Some (CacheEvaler_store c rs !! k).
Proof.
  intros Hk. induction rs as [|q rs IH] using rev_ind; [done|].
  rewrite CacheEvaler_store_snoc. apply lookup_insert_is_Some.
  destruct (decide (hashPoint q = k)); [by left|by right].
Qed.

(** With nothing cached, nothing is answered from the cache. *)
Lemma cache_empty_split (points : list Point) :
  cacheHits ∅ points = [] ∧ cacheMisses ∅ points = points.
Proof.
  unfold cacheHits, cacheMisses. induction points as [|p rest [IH1 IH2]].
  - done.
  - rewrite filter_cons, decide_True by apply lookup_empty.
    simpl. rewrite lookup_empty. simpl. split; [done|].
    by f_equal.
Qed.

(** The answers from the cache and the points left over are, together,
    the points of the batch, up to order. *)
Lemma cache_split_Pos (c : gmap (list Z) float) (points : list Point) :
  (Pos <$> cacheHits c points) ++ (Pos <$> cacheMisses c points)
  ≡ₚ Pos <$> points.
Proof.
  unfold cacheHits, cacheMisses. induction points as [|p rest IH]; [done|].
  rewrite filter_cons. case_decide as Hc.
  - simpl. rewrite Hc. simpl. rewrite <- Permutation_middle. by f_equiv.
  - destruct (c !! hashPoint p) as [val|] eqn:Hc'; [|done].
    simpl. rewrite Hc'. simpl. by f_equiv.
Qed.

(** The serial evaluator with continue-on-error. *)
Lemma SerialEvaler_Eval_continue {O} `{Objectiver O} (se : SerialEvaler)
    (obj : O) (points : list Point) :
  ContinueOnErr se = true →
  Eval se obj points
  = (((evalEach obj points).1, None), (se, (evalEach obj points).2)).
Proof.
  intros Hcont. unfold Eval, SerialEvaler_Evaler, SerialEvaler_Eval.
  pose proof (SerialFacts.SerialEvaler_loop_continue se Hcont points [] obj)
    as Hloop.
  simpl in Hloop. by rewrite Hloop.
Qed.

Lemma evalEach_length {O} `{Objectiver O} (points : list Point) (obj : O) :
  length (evalEach obj points).1 = length points.
Proof.
  rewrite <- (length_fmap Pos), evalEach_Pos. apply length_fmap.
Qed.

(** X5.  The caching evaluator never evicts: a digest that is in the
    cache before a call of [Eval] is in the cache after it; and an entry
    keeps its value unless the underlying evaluator returns a point of
    that digest. *)
Theorem cache_never_evicts {E} `{Evaler E} {O} `{Objectiver O}
    (cev : CacheEvaler E) (obj : O) (points : list Point) (k : list Z) :
  (is_Some (cache cev !! k) →
   is_Some (cache (Eval cev obj points).2.1 !! k))
  ∧ ((∀ q, q ∈ (Eval (ev cev) obj (cacheMisses (cache cev) points)).1.1 →
           hashPoint q ≠ k) →
     cache (Eval cev obj points).2.1 !! k = cache cev !! k).
Proof.
  rewrite CacheEvaler_Eval_unfold. cbv zeta. cbn [fst snd cache]. split.
  - apply CacheEvaler_store_is_Some.
  - apply CacheEvaler_store_other.
Qed.

(** X6.  A caching evaluator over a serial evaluator with
    continue-on-error returns one result per input point and the error
    [nil]: first the cached points with their cached values, in input
    order, then the other points, evaluated, in input order.  The
    coordinates returned are those of the input up to order. *)
Theorem cache_over_serial_returns_all {O} `{Objectiver O} (se : SerialEvaler)
    (c : gmap (list Z) float) (obj : O) (points : list Point) :
  ContinueOnErr se = true →
  let r := Eval (mkCacheEvaler se c) obj points in
  r.1 = (cacheHits c points ++ (evalEach obj (cacheMisses c points)).1, None)
  ∧ length r.1.1 = length points
  ∧ Pos <$> r.1.1 ≡ₚ Pos <$> points.
Proof.
  intros Hcont r. subst r.
  rewrite CacheEvaler_Eval_unfold. cbv zeta. cbn [ev cache].
  rewrite (SerialEvaler_Eval_continue se obj _ Hcont). cbn [fst snd].
  split; [done|].
  assert (Pos <$> cacheHits c points ++ (evalEach obj (cacheMisses c points)).1
          ≡ₚ Pos <$> points) as Hperm.
  { rewrite fmap_app, evalEach_Pos. apply cache_split_Pos. }
  split; [|done].
  rewrite <- (length_fmap Pos), Hperm. apply length_fmap.
Qed.

(** X7.  The first batch through a new caching evaluator goes to the
    underlying evaluator whole, duplicates included: results, error and
    the state the objective and the underlying evaluator end in are those
    of the underlying evaluator called on the batch itself. *)
Theorem new_cache_passes_batch_through {E} `{Evaler E} {O} `{Objectiver O}
    (e : E) (dims : Z) (obj : O) (points : list Point) :
  let r := Eval (NewCacheEvaler e dims) obj points in
  r.1 = (Eval e obj points).1
  ∧ ev r.2.1 = (Eval e obj points).2.1
  ∧ r.2.2 = (Eval e obj points).2.2.
Proof.
  intros r. subst r. rewrite CacheEvaler_Eval_unfold. cbv zeta.
  unfold NewCacheEvaler. cbn [ev cache fst snd].
  destruct (cache_empty_split points) as [-> ->].
  by destruct (Eval e obj points) as [[rs err] [e' obj']].
Qed.

(** X8.  A caching evaluator over a serial evaluator without
    continue-on-error, on a batch whose uncached points fail first at [p]
    with at least one uncached point after it: the zero [Point]s that the
    serial evaluator returns for the points it never evaluated are among
    the results, and the digest of the empty coordinate vector is cached
    with the value 0.  A later batch of one point without coordinates is
    answered with 0 from the cache, the objective not being called. *)
Theorem cache_stores_placeholders {O} `{Objectiver O} (se : SerialEvaler)
    (c : gmap (list Z) float) (obj : O) (points before : list Point)
    (p : Point) (after : list Point) (v : float) (e : error) (obj2 : O) :
  ContinueOnErr se = false →
  cacheMisses c points = before ++ p :: after →
  after ≠ [] →
  lastFailure obj before None = None →
  Objective (evalEach obj before).2 (Pos p) = ((v, Some e), obj2) →
  let r := Eval (mkCacheEvaler se c) obj points in
  r.1.2 = Some e
  ∧ zeroPoint ∈ r.1.1
  ∧ cache r.2.1 !! hashPoint zeroPoint = Some 0%float
  ∧ (∀ (obj' : O) (z : Point), Pos z = [] →
       Eval r.2.1 obj' [z] = (([mkPoint [] 0%float], None), (r.2.1, obj'))).
Proof.
  intros Hcont Hmiss Hafter Hok Hfail r. subst r.
  rewrite CacheEvaler_Eval_unfold. cbv zeta. cbn [ev cache].
  rewrite Hmiss, (SerialEvaler_Eval_abort se obj before p after v e obj2)
    by done.
  cbn [fst snd].
  destruct (length after) as [|n] eqn:Hlen.
  { by destruct after. }
  set (rs := (evalEach obj before).1 ++ mkPoint (Pos p) v :: replicate n zeroPoint).
  assert ((evalEach obj before).1 ++ mkPoint (Pos p) v :: replicate (S n) zeroPoint
          = rs ++ [zeroPoint]) as ->.
  { subst rs. by rewrite replicate_S_end, <- app_assoc. }
  assert (CacheEvaler_store c (rs ++ [zeroPoint]) !! hashPoint zeroPoint
          = Some 0%float) as Hzero.
  { rewrite CacheEvaler_store_snoc. apply lookup_insert_eq. }
  split; [done|]. split.
  { rewrite !elem_of_app. right. right. apply list_elem_of_singleton. done. }
  split; [done|].
  intros obj' z Hz.
  rewrite CacheEvaler_Eval_unfold. cbv zeta. cbn [ev cache].
  rewrite <- (hashPoint_Pos z zeroPoint) in Hzero by done.
  destruct (cache_hit_single _ z _ Hzero) as [-> ->].
  rewrite SerialEvaler_Eval_nil. cbn [fst snd app]. by rewrite Hz.
Qed.

End Cache.

#[local] Existing Instance plainDigest.

Lemma cache_never_evicts_witness :
  let cev := mkCacheEvaler (mkSerialEvaler false) {[ [7] := 1%float ]} in
  is_Some (cache (Eval cev failsOnSecond threePoints).2.1 !! [7])
  ∧ cache (Eval cev failsOnSecond []).2.1 !! [7] = Some 1%float.
Proof.
  intros cev. split.
  - apply (proj1 (cache_never_evicts cev failsOnSecond threePoints [7])).
    by eexists.
  - apply (proj2 (cache_never_evicts cev failsOnSecond [] [7])).
    intros q Hq. by apply elem_of_nil in Hq.
Defined.

Lemma cache_over_serial_returns_all_witness :
  let r := Eval (mkCacheEvaler (mkSerialEvaler true) ∅)
                failsOnSecondAndThird threePoints in
  r.1 = (cacheHits ∅ threePoints
           ++ (evalEach failsOnSecondAndThird (cacheMisses ∅ threePoints)).1,
         None)
  ∧ length r.1.1 = length threePoints
  ∧ Pos <$> r.1.1 ≡ₚ Pos <$> threePoints.
Proof.
  apply (cache_over_serial_returns_all (mkSerialEvaler true) ∅
           failsOnSecondAndThird threePoints).
  reflexivity.
Defined.

Lemma cache_stores_placeholders_witness :
  let r := Eval (mkCacheEvaler (mkSerialEvaler false) ∅)
                failsOnSecond threePoints in
  r.1.2 = Some "second point failed"%string
  ∧ zeroPoint ∈ r.1.1
  ∧ cache r.2.1 !! hashPoint zeroPoint = Some 0%float
  ∧ (∀ (obj' : FallibleObjectiver) (z : Point), Pos z = [] →
       Eval r.2.1 obj' [z] = (([mkPoint [] 0%float], None), (r.2.1, obj'))).
Proof.
  apply (cache_stores_placeholders (mkSerialEvaler false) ∅ failsOnSecond
           threePoints [mkPoint [1%float] 0] (mkPoint [2%float] 0)
           [mkPoint [3%float] 0] infinity "second point failed"%string
           failsOnSecond); done.
Defined.

End CacheMore.

(** ** More on the order of binary64 values *)

Module FloatOrderMore.
Import FloatOrder.

Ltac compare_cases :=
  repeat match goal with
         | H : context [(?x ?= ?y)%Z] |- _ => destruct (Z.compare_spec x y)
         | H : context [Pos.compare ?x ?y] |- _ => destruct (Pos.compare_spec x y)
         | |- context [(?x ?= ?y)%Z] => destruct (Z.compare_spec x y)
         | |- context [Pos.compare ?x ?y] => destruct (Pos.compare_spec x y)
         end.

Lemma SFleb_trans (a b c : spec_float) :
  SFleb a b = true → SFleb b c = true → SFleb a c = true.
Proof.
  unfold SFleb.
  destruct a as [[]|[]| |[] ma ea], b as [[]|[]| |[] mb eb],
           c as [[]|[]| |[] mc ec]; simpl; try done;
    change (Pos.compare_cont Eq ?x ?y) with (Pos.compare x y);
    compare_cases; simpl; try done; lia.
Qed.

Lemma SFltb_leb_trans (a b c : spec_float) :
  SFltb a b = true → SFleb b c = true → SFltb a c = true.
Proof.
  unfold SFltb, SFleb.
  destruct a as [[]|[]| |[] ma ea], b as [[]|[]| |[] mb eb],
           c as [[]|[]| |[] mc ec]; simpl; try done;
    change (Pos.compare_cont Eq ?x ?y) with (Pos.compare x y);
    compare_cases; simpl; try done; lia.
Qed.

Lemma leb_trans (x y z : float) :
  (x <=? y)%float = true → (y <=? z)%float = true → (x <=? z)%float = true.
Proof. rewrite !FloatAxioms.leb_spec. apply SFleb_trans. Qed.

Lemma ltb_leb_trans (x y z : float) :
  (x <? y)%float = true → (y <=? z)%float = true → (x <? z)%float = true.
Proof.
  rewrite !FloatAxioms.ltb_spec, FloatAxioms.leb_spec. apply SFltb_leb_trans.
Qed.

Lemma ltb_asym (x y : float) :
  (x <? y)%float = true → (y <? x)%float = false.
Proof.
  rewrite !FloatAxioms.ltb_spec. unfold SFltb.
  destruct (SFcompare (Prim2SF x) (Prim2SF y)) as [c|] eqn:Hc; [|done].
  rewrite (SFcompare_antisym _ _ _ Hc). by destruct c.
Qed.

(** [math.Max] and [math.Min] of two values that are not NaN: one of the
    two, and a bound of both. *)
Lemma Max_spec (x y : float) :
  is_nan x = false → is_nan y = false →
  (Max x y = x ∨ Max x y = y)
  ∧ (x <=? Max x y)%float = true ∧ (y <=? Max x y)%float = true.
Proof.
  intros Hx Hy. unfold Max. rewrite Hx, Hy. simpl.
  destruct (x <? y)%float eqn:Hxy.
  { split; [by right|]. split; [by apply ltb_leb|by apply leb_refl]. }
  destruct (y <? x)%float eqn:Hyx.
  { split; [by left|]. split; [by apply leb_refl|by apply ltb_leb]. }
  destruct (get_sign x).
  - split; [by right|]. split; [by apply not_ltb_leb|by apply leb_refl].
  - split; [by left|]. split; [by apply leb_refl|by apply not_ltb_leb].
Qed.

Lemma Min_spec (x y : float) :
  is_nan x = false → is_nan y = false →
  (Min x y = x ∨ Min x y = y)
  ∧ (Min x y <=? x)%float = true ∧ (Min x y <=? y)%float = true.
Proof.
  intros Hx Hy. unfold Min. rewrite Hx, Hy. simpl.
  destruct (x <? y)%float eqn:Hxy.
  { split; [by left|]. split; [by apply leb_refl|by apply ltb_leb]. }
  destruct (y <? x)%float eqn:Hyx.
  { split; [by right|]. split; [by apply ltb_leb|by apply leb_refl]. }
  destruct (get_sign x).
  - split; [by left|]. split; [by apply leb_refl|by apply not_ltb_leb].
  - split; [by right|]. split; [by apply not_ltb_leb|by apply leb_refl].
Qed.

(** Every value that is neither NaN nor +Inf is below +Inf. *)
Lemma ltb_infinity (x : float) :
  is_nan x = false → x ≠ infinity → (x <? infinity)%float = true.
Proof.
  intros Hnan%not_nan_Prim2SF Hinf. rewrite FloatAxioms.ltb_spec.
  change (Prim2SF infinity) with (S754_infinity false).
  destruct (Prim2SF x) as [s|[]| |s m e] eqn:Hx; try done.
  destruct Hinf. by apply Prim2SF_inj.
Qed.

End FloatOrderMore.

(** ** More on the meshes *)

Module GridMore.
Import Mesh Fixtures FloatOrder FloatOrderMore.
Local Open Scope nat_scope.

(** Reading the entries of a column one index after the other. *)
Lemma mapM_lookup_seq (f : float → float) (l : list float) :
  ∀ pre : list float,
    mapM (fun i => x ← (pre ++ l) !! i; Some (f x)) (seq (length pre) (length l))
    = Some (map f l).
Proof.
  induction l as [|x l IH]; intros pre; [done|].
  cbn [length seq mapM]. rewrite list_lookup_middle by done. simpl.
  specialize (IH (pre ++ [x])).
  rewrite length_app, Nat.add_1_r, <- app_assoc in IH. simpl in IH.
  by rewrite IH.
Qed.

Lemma zip_with_snap (step : float) (p : list float) :
  ∀ center : list float,
    zip_with (fun x c => (x + c)%float)
             (map (snap step) (zip_with (fun x c => (x - c)%float) p center))
             center
    = zip_with (fun x c => (snap step (x - c) + c)%float) p center.
Proof.
  induction p as [|x p IH]; intros [|c center]; simpl; [done..|].
  by rewrite IH.
Qed.

(** The clamping loop succeeds when both bounds reach as far as the
    point, and keeps the number of coordinates. *)
Lemma Bounded_clamp_Some (lower upper : list float) (p : list float) :
  ∀ i : nat,
    i + length p ≤ length lower → i + length p ≤ length upper →
    ∃ q, Bounded_clamp lower upper i p = Some q ∧ length q = length p
         ∧ ∀ j x, p !! j = Some x →
             ∃ lo up, lower !! (i + j) = Some lo ∧ upper !! (i + j) = Some up
                      ∧ q !! j = Some (Min up (Max lo x)).
Proof.
  induction p as [|x p IH]; intros i Hlo Hup; simpl in *.
  - exists []. by split_and!.
  - destruct (lookup_lt_is_Some_2 lower i) as [lo Hl]; [lia|].
    destruct (lookup_lt_is_Some_2 upper i) as [up Hu]; [lia|].
    destruct (IH (S i)) as (q & Hq & Hlen & Hall); [lia..|].
    exists (Min up (Max lo x) :: q). rewrite Hl, Hu. simpl. rewrite Hq. simpl.
    split_and!; [done|by rewrite Hlen|].
    intros [|j] y Hy; simpl in *.
    + simplify_eq. exists lo, up. by rewrite Nat.add_0_r.
    + destruct (Hall j y Hy) as (lo' & up' & ? & ? & ?).
      exists lo', up'. by rewrite Nat.add_succ_r.
Qed.

(** The clamping loop panics when a bound is shorter than the point. *)
Lemma Bounded_clamp_None (lower upper : list float) (p : list float) :
  ∀ i : nat,
    i ≤ length lower → i ≤ length upper →
    length lower < i + length p ∨ length upper < i + length p →
    Bounded_clamp lower upper i p = None.
Proof.
  induction p as [|x p IH]; intros i Hi1 Hi2 Hshort; simpl in *; [lia|].
  destruct (lower !! i) as [lo|] eqn:Hl; simpl; [|done].
  destruct (upper !! i) as [up|] eqn:Hu; simpl; [|done].
  apply lookup_lt_Some in Hl, Hu.
  rewrite IH; [done|lia..].
Qed.

Section Grid.
Context `{Mat64}.

(** X9.  Unbounded mesh without basis, nonzero step, origin unset or of
    the dimension of the point: [Nearest] does not panic; each coordinate
    of the result is computed from that coordinate of the point and of the
    origin alone, as the origin plus the snapped distance from it; an
    unset origin is fixed to the zero vector of the dimension of the
    point. *)
Theorem nearest_without_basis (m : Infinite) (p : list float) :
  Basis m = None → inverter m = None →
  (StepSize m =? 0)%float = false →
  Center m = [] ∨ length (Center m) = length p →
  let center :=
    if (length (Center m) =? 0) then replicate (length p) 0%float
    else Center m in
  Nearest m p
  = Some (zip_with (fun x c => (snap (StepSize m) (x - c) + c)%float) p center,
          mkInfinite center None (StepSize m) None).
Proof.
  intros Hb Hi Hstep Hdim center.
  destruct m as [c0 basis step inv]. simpl in Hb, Hi, Hstep, Hdim.
  subst basis inv. cbn [Center StepSize] in center |- *.
  unfold Nearest, Infinite_Mesh, Infinite_Nearest. simpl. rewrite Hstep.
  assert (length center = length p) as Hlen.
  { subst center. destruct Hdim as [-> | Hdim]; simpl.
    - apply length_replicate.
    - destruct (length c0 =? 0) eqn:Hz; [|done].
      apply Nat.eqb_eq in Hz. rewrite length_replicate. lia. }
  assert (negb (length c0 =? 0) && negb (length c0 =? length p) = false) as ->.
  { destruct Hdim as [-> | ->]; [done|].
    rewrite Nat.eqb_refl. by destruct (length p =? 0). }
  fold center. simpl.
  set (newp := zip_with (fun x c => (x - c)%float) p center).
  assert (length newp = length center) as Hnewp.
  { subst newp. rewrite length_zip_with. lia. }
  pose proof (mapM_lookup_seq (snap step) newp []) as Hmap.
  simpl in Hmap. rewrite <- Hnewp, Hmap. simpl.
  subst newp. by rewrite zip_with_snap.
Qed.

(** X10.  Unbounded mesh without basis: [Nearest] panics exactly when the
    step is not 0 and the origin is set with a dimension other than that
    of the point.  When it returns, the result has the dimension of the
    point; with step 0 it is the point itself and the mesh is unchanged;
    with another step the origin of the mesh afterwards has the dimension
    of the point. *)
Theorem nearest_panics_on_dimension (m : Infinite) (p : list float) :
  Basis m = None → inverter m = None →
  (Nearest m p = None
   ↔ (StepSize m =? 0)%float = false ∧ Center m ≠ []
     ∧ length (Center m) ≠ length p)
  ∧ (∀ q m', Nearest m p = Some (q, m') →
       length q = length p
       ∧ ((StepSize m =? 0)%float = true → q = p ∧ m' = m)
       ∧ ((StepSize m =? 0)%float = false → length (Center m') = length p)).
Proof.
  intros Hb Hi.
  destruct (StepSize m =? 0)%float eqn:Hstep.
  - assert (Nearest m p = Some (p, m)) as Hn.
    { unfold Nearest, Infinite_Mesh, Infinite_Nearest. by rewrite Hstep. }
    rewrite Hn. split.
    + split; [done|]. by intros [? _].
    + intros q m' [= <- <-]. by split_and!.
  - destruct (decide (Center m = [] ∨ length (Center m) = length p))
      as [Hdim|Hdim].
    + pose proof (nearest_without_basis m p Hb Hi Hstep Hdim) as Hn.
      cbv zeta in Hn. rewrite Hn. split.
      * split; [done|]. intros (_ & Hc & Hl). by destruct Hdim.
      * intros q m' [= <- <-]. cbn [Center].
        assert (length (if length (Center m) =? 0
                        then replicate (length p) 0%float else Center m)
                = length p) as Hlen.
        { destruct Hdim as [-> | Hdim]; simpl; [apply length_replicate|].
          destruct (length (Center m) =? 0) eqn:Hz; [|done].
          apply Nat.eqb_eq in Hz. rewrite length_replicate. lia. }
        split_and!; [|done|done].
        rewrite length_zip_with. lia.
    + assert (Center m ≠ [] ∧ length (Center m) ≠ length p) as [Hc Hl].
      { split; intros ?; apply Hdim; [by left|by right]. }
      assert (Nearest m p = None) as Hn.
      { unfold Nearest, Infinite_Mesh, Infinite_Nearest. rewrite Hstep.
        apply Nat.eqb_neq in Hl. rewrite Hl.
        destruct (Center m); [done|]. done. }
      rewrite Hn. split; [done|]. by intros q m'.
Qed.

(** X11.  The clamping of [Bounded.Nearest], for a point no longer than
    the bounds: it does not panic and keeps the dimension of the point;
    a coordinate that is not NaN, between a lower and an upper bound that
    are not NaN and in order, ends within the two bounds.  Over a
    continuous mesh (step 0), [Nearest] returns the clamped point. *)
Theorem bounded_clamp_within_bounds (lower upper p : list float) :
  length p ≤ length lower → length p ≤ length upper →
  ∃ q, Bounded_clamp lower upper 0 p = Some q
       ∧ length q = length p
       ∧ (∀ j x lo up y,
            p !! j = Some x → lower !! j = Some lo → upper !! j = Some up →
            q !! j = Some y →
            is_nan x = false → is_nan lo = false → is_nan up = false →
            (lo <=? up)%float = true →
            (lo <=? y)%float = true ∧ (y <=? up)%float = true)
       ∧ (∀ m : Infinite,
            (StepSize m =? 0)%float = true →
            Nearest (mkBounded lower upper m) p
            = Some (q, mkBounded lower upper m)).
Proof.
  intros Hlo Hup.
  destruct (Bounded_clamp_Some lower upper p 0) as (q & Hq & Hlen & Hall);
    [done..|].
  exists q. split_and!; [done|done| |].
  - intros j x lo up y Hx Hl Hu Hy Hnx Hnlo Hnup Hle.
    destruct (Hall j x Hx) as (lo' & up' & Hl' & Hu' & Hq'). simpl in *.
    simplify_eq.
    destruct (Max_spec lo x Hnlo Hnx) as (Hmax & Hmax1 & _).
    assert (is_nan (Max lo x) = false) as Hnmax.
    { by destruct Hmax as [->| ->]. }
    destruct (Min_spec up (Max lo x) Hnup Hnmax) as (Hmin & Hmin1 & _).
    split; [|done]. by destruct Hmin as [->| ->].
  - intros m Hstep.
    unfold Nearest at 1, Bounded_Mesh, Bounded_Nearest. cbn [Lower Upper b_Mesh].
    rewrite Hq. simpl.
    unfold Nearest, Infinite_Mesh, Infinite_Nearest. by rewrite Hstep.
Qed.

End Grid.

(** X12.  [Bounded.Nearest] panics on a point with more coordinates than
    the lower or the upper bound, whatever the wrapped mesh; and
    [NewBounded] panics on bounds of different lengths. *)
Theorem bounded_panics_on_long_point {M} `{Mesh.Mesh M} (m : M)
    (lower upper p : list float) :
  (length lower < length p ∨ length upper < length p →
   Nearest (mkBounded lower upper m) p = None)
  ∧ (length lower ≠ length upper → NewBounded m lower upper = None).
Proof.
  split.
  - intros Hshort. unfold Nearest at 1, Bounded_Mesh, Bounded_Nearest.
    cbn [Lower Upper b_Mesh].
    rewrite Bounded_clamp_None; [done|lia|lia|done].
  - intros Hne. unfold NewBounded. apply Nat.eqb_neq in Hne. by rewrite Hne.
Qed.

(** X13.  [Integer.SetStep] over an unbounded mesh never sets a step below
    1: for a requested step that is not NaN, the step afterwards is at
    least 1 and at least the requested one, and it is one of the two. *)
Theorem integer_step_at_least_one `{Mat64} (m : Infinite) (step : float) :
  is_nan step = false →
  let s := Step (SetStep (mkInteger m) step) in
  (1 <=? s)%float = true ∧ (step <=? s)%float = true
  ∧ (s = step ∨ s = 1%float).
Proof.
  intros Hstep s. subst s. simpl.
  destruct (Max_spec step 1 Hstep eq_refl) as (Hmax & H1 & H2).
  by split_and!.
Qed.

#[local] Existing Instance noMatrices.

Lemma nearest_without_basis_witness :
  let center :=
    if (length (Center (grid 2 [])) =? 0) then replicate 2 0%float
    else Center (grid 2 []) in
  Nearest (grid 2 []) [3.5%float; 7%float]
  = Some (zip_with (fun x c => (snap 2 (x - c) + c)%float)
                   [3.5%float; 7%float] center,
          mkInfinite center None 2 None).
Proof.
  apply (nearest_without_basis (grid 2 []) [3.5%float; 7%float]);
    [reflexivity..|by left].
Defined.

Lemma nearest_panics_on_dimension_witness :
  Nearest (grid 3 [1.1%float]) [1%float; 2%float] = None
  ∧ (∀ q m', Nearest (grid 3 [1.1%float]) [5.2%float] = Some (q, m') →
       length q = 1 ∧ length (Center m') = 1).
Proof.
  split.
  - apply (proj1 (nearest_panics_on_dimension (grid 3 [1.1%float])
                    [1%float; 2%float] eq_refl eq_refl)).
    split_and!; done.
  - intros q m' Hn.
    destruct (proj2 (nearest_panics_on_dimension (grid 3 [1.1%float])
                       [5.2%float] eq_refl eq_refl) q m' Hn)
      as (Hlen & _ & Hc).
    split; [done|]. by apply Hc.
Defined.

Lemma bounded_clamp_within_bounds_witness :
  ∃ q, Bounded_clamp [0%float; 0%float] [1%float; 1%float] 0
                     [5%float; (-3)%float] = Some q
       ∧ length q = 2
       ∧ (∀ j x lo up y,
            [5%float; (-3)%float] !! j = Some x →
            [0%float; 0%float] !! j = Some lo →
            [1%float; 1%float] !! j = Some up →
            q !! j = Some y →
            is_nan x = false → is_nan lo = false → is_nan up = false →
            (lo <=? up)%float = true →
            (lo <=? y)%float = true ∧ (y <=? up)%float = true)
       ∧ (∀ m : Infinite,
            (StepSize m =? 0)%float = true →
            Nearest (mkBounded [0%float; 0%float] [1%float; 1%float] m)
                    [5%float; (-3)%float]
            = Some (q, mkBounded [0%float; 0%float] [1%float; 1%float] m)).
Proof.
  apply (bounded_clamp_within_bounds [0%float; 0%float] [1%float; 1%float]
           [5%float; (-3)%float]); simpl; lia.
Defined.

Lemma bounded_panics_on_long_point_witness :
  Nearest (mkBounded [0%float] [1%float] (grid 1 [])) [1%float; 2%float] = None
  ∧ NewBounded (grid 1 []) [0%float] [1%float; 2%float] = None.
Proof.
  split.
  - apply (proj1 (bounded_panics_on_long_point (grid 1 []) [0%float] [1%float]
                    [1%float; 2%float])).
    left. simpl. lia.
  - apply (proj2 (bounded_panics_on_long_point (grid 1 []) [0%float]
                    [1%float; 2%float] [])).
    simpl. lia.
Defined.

Lemma integer_step_at_least_one_witness :
  let s := Step (SetStep (mkInteger (grid 1 [])) 0.25%float) in
  (1 <=? s)%float = true ∧ (0.25 <=? s)%float = true
  ∧ (s = 0.25%float ∨ s = 1%float).
Proof.
  apply (integer_step_at_least_one (grid 1 []) 0.25%float). reflexivity.
Defined.

End GridMore.

(** ** More on particles, populations and the mover *)

Module SwarmMore.
Import Optim Pswarm Spec Fixtures FloatOrder FloatOrderMore.
Local Open Scope nat_scope.

(** *** [Population.Best] *)

Lemma Population_Best_cons (p0 : Particle) (rest : Population) :
  Population_Best (p0 :: rest) = Some (foldl betterBest (Best p0) rest).
Proof. reflexivity. Qed.

(** The loop returns its start value or the best of a particle it saw. *)
Lemma foldl_betterBest_elem (rest : Population) :
  ∀ b0 : Point,
    foldl betterBest b0 rest = b0
    ∨ ∃ q, q ∈ rest ∧ foldl betterBest b0 rest = Best q.
Proof.
  induction rest as [|p rest IH]; intros b0; simpl; [by left|].
  destruct (IH (betterBest b0 p)) as [Heq|(q & Hq & Heq)].
  - rewrite Heq. unfold betterBest.
    destruct (_ <? _)%float; [|by left].
    right. exists p. split; [apply list_elem_of_here|done].
  - right. exists q. split; [by apply list_elem_of_further|done].
Qed.

(** The loop returns a value that is not NaN and is at most the start
    value and at most the best value of every particle it saw. *)
Lemma foldl_betterBest_min (rest : Population) :
  Forall (fun q => is_nan (Val (Best q)) = false) rest →
  ∀ b0 : Point,
    is_nan (Val b0) = false →
    let b := foldl betterBest b0 rest in
    is_nan (Val b) = false
    ∧ (Val b <=? Val b0)%float = true
    ∧ ∀ q, q ∈ rest → (Val b <=? Val (Best q))%float = true.
Proof.
  induction 1 as [|p rest Hp _ IH]; intros b0 Hb0; cbn zeta; simpl.
  - split_and!; [done|by apply leb_refl|]. intros q Hq.
    by apply elem_of_nil in Hq.
  - assert (is_nan (Val (betterBest b0 p)) = false
            ∧ (Val (betterBest b0 p) <=? Val b0)%float = true
            ∧ (Val (betterBest b0 p) <=? Val (Best p))%float = true)
      as (Hn1 & Hle0 & Hlep).
    { unfold betterBest. destruct (_ <? _)%float eqn:Hlt.
      - split_and!; [done|by apply ltb_leb|by apply leb_refl].
      - split_and!; [done|by apply leb_refl|by apply not_ltb_leb]. }
    destruct (IH (betterBest b0 p) Hn1) as (Hn & Hle & Hall).
    split_and!; [done|by eapply leb_trans|].
    intros q [->|Hq]%elem_of_cons; [by eapply leb_trans|by apply Hall].
Qed.

(** The loop keeps a start value that no particle beats. *)
Lemma foldl_betterBest_keep (rest : Population) (b0 : Point) :
  (∀ q, q ∈ rest → (Val (Best q) <? Val b0)%float = false) →
  foldl betterBest b0 rest = b0.
Proof.
  induction rest as [|p rest IH]; intros Hall; simpl; [done|].
  unfold betterBest at 2. rewrite (Hall p) by apply list_elem_of_here.
  apply IH. intros q Hq. by apply Hall, list_elem_of_further.
Qed.

(** X14.  [Population.Best] panics on an empty population.  On any other
    it returns the personal best of one of the particles; when no
    personal-best value is NaN, its value is at most the personal-best
    value of every particle. *)
Theorem population_best_is_minimum (pop : Population) :
  (pop = [] → Population_Best pop = None)
  ∧ (pop ≠ [] →
     ∃ b, Population_Best pop = Some b
          ∧ (∃ q, q ∈ pop ∧ b = Best q)
          ∧ (Forall (fun q => is_nan (Val (Best q)) = false) pop →
             ∀ q, q ∈ pop → (Val b <=? Val (Best q))%float = true)).
Proof.
  split; [by intros ->|].
  destruct pop as [|p0 rest]; [done|]. intros _.
  exists (foldl betterBest (Best p0) rest). split_and!; [done| |].
  - destruct (foldl_betterBest_elem rest (Best p0)) as [->|(q & Hq & ->)].
    + exists p0. split; [apply list_elem_of_here|done].
    + exists q. split; [by apply list_elem_of_further|done].
  - intros [Hp0 Hrest]%Forall_cons.
    destruct (foldl_betterBest_min rest Hrest (Best p0) Hp0) as (_ & Hle & Hall).
    intros q [->|Hq]%elem_of_cons; [done|by apply Hall].
Qed.

Lemma population_best_is_minimum_witness :
  Population_Best [] = None
  ∧ ∃ b, Population_Best [fastParticle; settledParticle] = Some b
         ∧ (∃ q, q ∈ [fastParticle; settledParticle] ∧ b = Best q)
         ∧ (Forall (fun q => is_nan (Val (Best q)) = false)
                   [fastParticle; settledParticle] →
            ∀ q, q ∈ [fastParticle; settledParticle] →
                 (Val b <=? Val (Best q))%float = true).
Proof.
  split.
  - by apply (proj1 (population_best_is_minimum [])).
  - by apply (proj2 (population_best_is_minimum [fastParticle; settledParticle])).
Defined.

(** *** [SimpleMover.Move] *)

Section Mover.
Variables (mv : SimpleMover) (best : Point).

Lemma clamp_length (vmax : float) (vel : list float) :
  length (clamp mv vmax vel) = length vel.
Proof. unfold clamp. destruct (_ && _); [apply length_map|done]. Qed.

(** The velocity loop does not panic when the velocity, the best point
    and the position reach as far as the loop goes; it keeps the length of
    the velocity and calls the inertia function once per component. *)
Lemma velLoop_Some (vmax w1 w2 : float) (p : Point) :
  ∀ (k i : nat) (vel : list float) (inertia : Source),
    i + k ≤ length vel → i + k ≤ Len best → i + k ≤ Len p →
    ∃ vel', velLoop mv vmax w1 w2 best p k i vel inertia
            = Some (vel', mkSource (src_seq inertia) (src_pos inertia + k))
            ∧ length vel' = length vel.
Proof.
  induction k as [|k IH]; intros i vel [seq pos0] Hvel Hbest Hp; simpl.
  - exists vel. by rewrite Nat.add_0_r.
  - destruct (lookup_lt_is_Some_2 vel i) as [currv ->]; [lia|].
    destruct (lookup_lt_is_Some_2 (Pos best) i) as [b Hb]; [unfold Len in *; lia|].
    destruct (lookup_lt_is_Some_2 (Pos p) i) as [x Hx]; [unfold Len in *; lia|].
    simpl. unfold newVel, At. rewrite Hb, Hx. simpl.
    set (vel1 := clamp mv vmax (<[i:=_]> vel)).
    assert (length vel1 = length vel) as Hlen1.
    { subst vel1. by rewrite clamp_length, length_insert. }
    destruct (IH (S i) vel1 (mkSource seq (S pos0))) as (vel' & Hloop & Hlen);
      [lia..|].
    exists vel'. rewrite Hloop. simpl. split; [|congruence].
    do 3 f_equal. lia.
Qed.

(** The position loop adds the velocity to the position, component by
    component. *)
Lemma posLoop_Some (p : Point) (vel : list float) :
  ∀ k i : nat,
    i + k ≤ Len p → i + k ≤ length vel →
    ∃ pos, posLoop p vel k i = Some pos ∧ length pos = k
           ∧ ∀ (j : nat) (x v : float),
               Pos p !! (i + j) = Some x → vel !! (i + j) = Some v → j < k →
               pos !! j = Some (x + v)%float.
Proof.
  induction k as [|k IH]; intros i Hp Hvel; simpl.
  - exists []. split_and!; [done..|]. intros; lia.
  - destruct (lookup_lt_is_Some_2 (Pos p) i) as [x Hx]; [unfold Len in *; lia|].
    destruct (lookup_lt_is_Some_2 vel i) as [v Hv]; [lia|].
    destruct (IH (S i)) as (pos & Hpos & Hlen & Hall); [lia..|].
    exists ((x + v)%float :: pos). unfold At. rewrite Hx, Hv. simpl.
    rewrite Hpos. simpl. split_and!; [done|by rewrite Hlen|].
    intros [|j] x' v' Hx' Hv' Hj; simpl.
    + rewrite Nat.add_0_r in Hx', Hv'. congruence.
    + rewrite Nat.add_succ_r in Hx', Hv'. apply Hall; [done..|lia].
Qed.

(** One particle of dimension [d] under a best point of dimension [d]. *)
Lemma moveParticle_Some (d : nat) (rng inertia : Source) (p : Particle) :
  Len (p_Point p) = d → length (Vel p) = d → Len best = d →
  ∃ p', moveParticle mv best rng inertia p
        = Some (p', (mkSource (src_seq rng) (src_pos rng + 2),
                     mkSource (src_seq inertia) (src_pos inertia + d)))
        ∧ movedFrom d p p'.
Proof.
  intros Hp Hvel Hbest. unfold moveParticle.
  destruct rng as [rseq rpos]. simpl.
  destruct (velLoop_Some (velocityCap mv (Vel p)) (rseq rpos) (rseq (S rpos))
              (p_Point p) (length (Vel p)) 0 (Vel p) inertia)
    as (vel & Hloop & Hlen); [simpl; lia..|].
  rewrite Hloop. simpl.
  destruct (posLoop_Some (p_Point p) vel (Len (p_Point p)) 0)
    as (pos & Hpos & Hplen & Hall); [simpl; lia..|].
  rewrite Hpos. simpl.
  eexists. split.
  { do 3 f_equal; [f_equal; lia|by rewrite Hvel]. }
  unfold movedFrom, Len, NewPoint. simpl.
  split_and!; [done|done|done|congruence|congruence|].
  intros j x v Hx Hv. apply (Hall j x v Hx Hv).
  apply lookup_lt_Some in Hx. by unfold Len.
Qed.

(** The loop over a population of particles of dimension [d]: two random
    numbers are drawn per particle, the inertia function is called [d]
    times per particle. *)
Lemma moveAll_Some (d : nat) (pop : Population) :
  Len best = d →
  Forall (fun p => Len (p_Point p) = d ∧ length (Vel p) = d) pop →
  ∀ rng inertia : Source,
    ∃ pop', moveAll mv best rng inertia pop
            = Some (pop',
                    (mkSource (src_seq rng) (src_pos rng + 2 * length pop),
                     mkSource (src_seq inertia)
                              (src_pos inertia + d * length pop)))
            ∧ Forall2 (movedFrom d) pop pop'.
Proof.
  intros Hbest. induction 1 as [|p pop [Hp Hvel] _ IH]; intros rng inertia;
    simpl.
  - exists []. split; [|constructor]. by rewrite Nat.mul_0_r, !Nat.add_0_r;
      destruct rng, inertia.
  - destruct (moveParticle_Some d rng inertia p Hp Hvel Hbest)
      as (p' & Hmove & Hfrom).
    rewrite Hmove. simpl.
    destruct (IH (mkSource (src_seq rng) (src_pos rng + 2))
                 (mkSource (src_seq inertia) (src_pos inertia + d)))
      as (pop' & Hall & Hfroms).
    rewrite Hall. simpl. exists (p' :: pop'). split; [|by constructor].
    do 3 f_equal; f_equal; lia.
Qed.

End Mover.

(** [Move] on a population that is not empty, whose particles and
    personal bests all have dimension [d]. *)
Lemma SimpleMover_Move_Some `{MathRand} (mv : SimpleMover) (d : nat)
    (pop : Population) :
  pop ≠ [] →
  Forall (fun p => Len (p_Point p) = d ∧ length (Vel p) = d) pop →
  Forall (fun p => Len (Best p) = d) pop →
  let rng := default (mkSource (rand_Float64s 1%Z) 0) (Rng mv) in
  let inertia := default (mkSource (fun _ => DefaultInertia) 0) (InertiaFn mv) in
  ∃ pop', Move mv pop
          = Some (mkSimpleMover (Cognition mv) (Social mv) (Vmax mv)
                    (Some (mkSource (src_seq inertia)
                                    (src_pos inertia + d * length pop)))
                    (Some (mkSource (src_seq rng)
                                    (src_pos rng + 2 * length pop))),
                  pop')
          ∧ Forall2 (movedFrom d) pop pop'.
Proof.
  intros Hne Hdims Hbests rng inertia.
  unfold Move, SimpleMover_Mover, SimpleMover_Move. fold rng inertia.
  destruct pop as [|p0 rest]; [done|].
  rewrite Population_Best_cons. cbn [mbind option_bind].
  set (best := foldl betterBest (Best p0) rest).
  assert (Len best = d) as Hbest.
  { destruct (foldl_betterBest_elem rest (Best p0)) as [Heq|(q & Hq & Heq)];
      subst best; rewrite Heq.
    - by apply Forall_cons in Hbests as [? _].
    - apply Forall_cons in Hbests as [_ Hrest].
      by apply (proj1 (Forall_forall _ _) Hrest). }
  destruct (moveAll_Some mv best d (p0 :: rest) Hbest Hdims rng inertia)
    as (pop' & Hall & Hfroms).
  rewrite Hall. simpl. by exists pop'.
Qed.

#[local] Existing Instance halvesRand.

(** X15.  [Move] panics on an empty population.  On a population that is
    not empty, whose positions, velocities and personal bests all have
    the same dimension, it does not panic; it keeps the number and the
    order of the particles and the weights and the cap of the mover; every
    particle keeps its id, its personal best, its value and its dimension,
    and its new position is its old position plus its new velocity,
    component by component. *)
Theorem move_keeps_swarm_shape `{MathRand} (mv : SimpleMover) (d : nat)
    (pop : Population) :
  pop ≠ [] →
  Forall (fun p => Len (p_Point p) = d ∧ length (Vel p) = d) pop →
  Forall (fun p => Len (Best p) = d) pop →
  Move mv [] = None
  ∧ ∃ mv' pop', Move mv pop = Some (mv', pop')
                ∧ Forall2 (movedFrom d) pop pop'
                ∧ length pop' = length pop
                ∧ Cognition mv' = Cognition mv ∧ Social mv' = Social mv
                ∧ Vmax mv' = Vmax mv.
Proof.
  intros Hne Hdims Hbests. split; [done|].
  destruct (SimpleMover_Move_Some mv d pop Hne Hdims Hbests)
    as (pop' & Hmove & Hfrom).
  eexists _, pop'. split; [exact Hmove|]. split; [done|].
  split; [symmetry; by eapply Forall2_length|done].
Qed.

Lemma move_keeps_swarm_shape_witness :
  Move cappedMover [] = None
  ∧ ∃ mv' pop', Move cappedMover [fastParticle; fastParticle] = Some (mv', pop')
                ∧ Forall2 (movedFrom 2) [fastParticle; fastParticle] pop'
                ∧ length pop' = 2
                ∧ Cognition mv' = 1%float ∧ Social mv' = 1%float
                ∧ Vmax mv' = 5%float.
Proof.
  apply (move_keeps_swarm_shape cappedMover 2 [fastParticle; fastParticle]);
    [done|by repeat constructor..].
Defined.

(** X16.  [Move] on such a population draws exactly two random numbers per
    particle and calls the inertia function once per particle and
    dimension; a mover without generator starts the generator of seed 1,
    and a mover without inertia function gets the constant 0.9; both are
    kept in the mover for the next call. *)
Theorem move_draws_two_numbers_per_particle `{MathRand} (mv : SimpleMover)
    (d : nat) (pop : Population) :
  pop ≠ [] →
  Forall (fun p => Len (p_Point p) = d ∧ length (Vel p) = d) pop →
  Forall (fun p => Len (Best p) = d) pop →
  let rng := default (mkSource (rand_Float64s 1%Z) 0) (Rng mv) in
  let inertia := default (mkSource (fun _ => DefaultInertia) 0) (InertiaFn mv) in
  ∃ mv' pop', Move mv pop = Some (mv', pop')
              ∧ Rng mv' = Some (mkSource (src_seq rng)
                                         (src_pos rng + 2 * length pop))
              ∧ InertiaFn mv' = Some (mkSource (src_seq inertia)
                                               (src_pos inertia + d * length pop)).
Proof.
  intros Hne Hdims Hbests rng inertia.
  destruct (SimpleMover_Move_Some mv d pop Hne Hdims Hbests)
    as (pop' & Hmove & Hfrom).
  eexists _, pop'. split; [exact Hmove|]. done.
Qed.

Lemma move_draws_two_numbers_per_particle_witness :
  ∃ mv' pop',
    Move (mkSimpleMover 0.5 0.5 0 None None) [fastParticle; fastParticle]
    = Some (mv', pop')
    ∧ Rng mv' = Some (mkSource (rand_Float64s 1%Z) (0 + 2 * 2))
    ∧ InertiaFn mv' = Some (mkSource (fun _ => DefaultInertia) (0 + 2 * 2)).
Proof.
  assert (Forall (fun p => Len (p_Point p) = 2 ∧ length (Vel p) = 2)
                 [fastParticle; fastParticle]) as Hdims.
  { by repeat constructor. }
  assert (Forall (fun p => Len (Best p) = 2) [fastParticle; fastParticle])
    as Hbests.
  { by repeat constructor. }
  assert ([fastParticle; fastParticle] ≠ []) as Hne by done.
  exact (move_draws_two_numbers_per_particle
           (mkSimpleMover 0.5 0.5 0 None None) 2 [fastParticle; fastParticle]
           Hne Hdims Hbests).
Defined.

(** *** [NewPopulation] *)

(** The inner loop does not panic when [maxv] reaches as far as [minv]:
    one component and one random number per entry of [minv]. *)
Lemma initVel_Some (maxv : list float) :
  ∀ (minv : list float) (j : nat) (rand : Source),
    j + length minv ≤ length maxv →
    ∃ vel, initVel minv maxv j rand
           = Some (vel, mkSource (src_seq rand) (src_pos rand + length minv))
           ∧ length vel = length minv.
Proof.
  induction minv as [|lo minv IH]; intros j [seq pos0] Hlen; simpl in *.
  - exists []. by rewrite Nat.add_0_r.
  - destruct (lookup_lt_is_Some_2 maxv j) as [hi ->]; [lia|]. simpl.
    destruct (IH (S j) (mkSource seq (S pos0))) as (vel & -> & Hvel); [lia|].
    simpl. eexists. split.
    { do 3 f_equal. lia. }
    simpl. lia.
Qed.

Lemma initVel_None (maxv : list float) :
  ∀ (minv : list float) (j : nat) (rand : Source),
    j ≤ length maxv → length maxv < j + length minv →
    initVel minv maxv j rand = None.
Proof.
  induction minv as [|lo minv IH]; intros j rand Hj Hlen; simpl in *; [lia|].
  destruct (maxv !! j) as [hi|] eqn:Hhi; simpl; [|done].
  apply lookup_lt_Some in Hhi.
  rewrite IH; [done|lia..].
Qed.

Lemma newParticles_Some (minv maxv : list float) :
  length minv ≤ length maxv →
  ∀ (points : list Point) (i : nat) (rand : Source),
    ∃ pop, newParticles points i minv maxv rand
           = Some (pop, mkSource (src_seq rand)
                                 (src_pos rand + length minv * length points))
           ∧ length pop = length points
           ∧ ∀ (k : nat) (q : Particle),
               pop !! k = Some q →
               ∃ p, points !! k = Some p ∧ Id q = Z.of_nat (i + k)
                    ∧ p_Point q = p ∧ Best q = NewPoint (Pos p) infinity
                    ∧ length (Vel q) = length minv.
Proof.
  intros Hlen. induction points as [|p points IH]; intros i [seq pos0]; simpl.
  - exists []. rewrite Nat.mul_0_r, Nat.add_0_r. by split_and!.
  - destruct (initVel_Some maxv minv 0 (mkSource seq pos0)) as (vel & -> & Hvel);
      [simpl; lia|]. simpl.
    destruct (IH (S i) (mkSource seq (pos0 + length minv)))
      as (pop & -> & Hpop & Hall).
    simpl. eexists. split; [do 3 f_equal; lia|].
    split; [simpl; lia|].
    intros [|k] q Hq; simpl in *.
    + simplify_eq. exists p. rewrite Nat.add_0_r. by split_and!.
    + destruct (Hall k q Hq) as (p' & Hp' & Hid & Hrest).
      exists p'. split; [done|]. split; [|done].
      rewrite Hid. f_equal. lia.
Qed.

(** X17.  [NewPopulation] with [maxv] at least as long as [minv] does not
    panic: it makes one particle per point, in order, particle [k] with
    id [k], the point itself as position and value, a personal best at the
    same coordinates with value +Inf, and a velocity with one component
    per entry of [minv]; it draws one random number per particle and
    component.  With [maxv] shorter than [minv] and at least one point it
    panics. *)
Theorem new_population_shape (points : list Point) (minv maxv : list float)
    (rand : Source) :
  (length minv ≤ length maxv →
   ∃ pop, NewPopulation points minv maxv rand
          = Some (pop, mkSource (src_seq rand)
                                (src_pos rand + length minv * length points))
          ∧ length pop = length points
          ∧ ∀ (k : nat) (q : Particle),
              pop !! k = Some q →
              ∃ p, points !! k = Some p ∧ Id q = Z.of_nat k
                   ∧ p_Point q = p ∧ Best q = NewPoint (Pos p) infinity
                   ∧ length (Vel q) = length minv)
  ∧ (length maxv < length minv → points ≠ [] →
     NewPopulation points minv maxv rand = None).
Proof.
  split.
  - intros Hlen. apply (newParticles_Some minv maxv Hlen points 0 rand).
  - intros Hlen Hne. destruct points as [|p points]; [done|].
    unfold NewPopulation. simpl.
    rewrite initVel_None; [done|lia|simpl; lia].
Qed.

Lemma new_population_shape_witness :
  (∃ pop, NewPopulation threePoints [0%float; 0%float] [1%float; 1%float] halves
          = Some (pop, mkSource (src_seq halves) (src_pos halves + 2 * 3))
          ∧ length pop = 3
          ∧ ∀ (k : nat) (q : Particle),
              pop !! k = Some q →
              ∃ p, threePoints !! k = Some p ∧ Id q = Z.of_nat k
                   ∧ p_Point q = p ∧ Best q = NewPoint (Pos p) infinity
                   ∧ length (Vel q) = 2)
  ∧ NewPopulation threePoints [0%float; 0%float] [1%float] halves = None.
Proof.
  split.
  - apply (proj1 (new_population_shape threePoints [0%float; 0%float]
                    [1%float; 1%float] halves)).
    simpl. lia.
  - apply (proj2 (new_population_shape threePoints [0%float; 0%float]
                    [1%float] halves)); [simpl; lia|done].
Defined.

(** *** [Particle.Update] *)

(** X18.  A particle whose personal best has the value +Inf, as
    [NewPopulation] makes it: an update with a point whose value is
    neither NaN nor +Inf makes that point the personal best; an update
    with a point of value +Inf, the value of a failed evaluation, leaves
    the personal best as it is when its coordinate vector is not empty. *)
Theorem first_update_sets_best (q : Particle) (pos : list float) (newp : Point) :
  Best q = NewPoint pos infinity →
  (is_nan (Val newp) = false → Val newp ≠ infinity →
   Best (Update q newp) = newp)
  ∧ (Val newp = infinity → pos ≠ [] → Best (Update q newp) = Best q).
Proof.
  intros Hbest. rewrite SwarmFacts.Update_Best, Hbest. simpl. split.
  - intros Hnan Hinf. by rewrite (ltb_infinity _ Hnan Hinf).
  - intros -> Hpos. unfold Len. simpl. by destruct pos.
Qed.

Lemma first_update_sets_best_witness :
  let q := mkParticle 0 (mkPoint [1%float] 0) [0%float]
                      (NewPoint [1%float] infinity) in
  Best (Update q (mkPoint [1%float] 5)) = mkPoint [1%float] 5
  ∧ Best (Update q (mkPoint [2%float] infinity)) = Best q.
Proof.
  intros q. split.
  - apply (proj1 (first_update_sets_best q [1%float] (mkPoint [1%float] 5)
                    eq_refl)); [done|].
    intros Heq. apply (f_equal (fun x => (x =? 5)%float)) in Heq.
    vm_compute in Heq. discriminate.
  - by apply (proj2 (first_update_sets_best q [1%float]
                       (mkPoint [2%float] infinity) eq_refl)).
Defined.

(** X19.  [Particle.Update] changes the value and, at most, the personal
    best of the particle: the id, the coordinates and the velocity stay,
    also when the new point has other coordinates; the personal best
    afterwards is the old one or the new point; and updating twice with
    the same point is the same as updating once. *)
Theorem update_touches_value_and_best (p : Particle) (newp : Point) :
  Id (Update p newp) = Id p
  ∧ Pos (p_Point (Update p newp)) = Pos (p_Point p)
  ∧ Vel (Update p newp) = Vel p
  ∧ Val (p_Point (Update p newp)) = Val newp
  ∧ (Best (Update p newp) = Best p ∨ Best (Update p newp) = newp)
  ∧ Update (Update p newp) newp = Update p newp.
Proof.
  unfold Update. simpl.
  destruct (Val newp <? Val (Best p))%float eqn:Hlt; simpl.
  - split_and!; try done; [by right|].
    destruct (Val newp <? Val newp)%float, (Len newp =? 0); done.
  - destruct (Len (Best p) =? 0) eqn:Hlen; simpl.
    + split_and!; try done; [by right|].
      destruct (Val newp <? Val newp)%float, (Len newp =? 0); done.
    + split_and!; try done; [by left|].
      by rewrite Hlt, Hlen.
Qed.

(** *** [Iterator.AddPoint] *)

(** X20.  [AddPoint] panics on an empty population.  On a population whose
    personal-best values are not NaN, a point whose value is strictly
    below that of the global best becomes the personal best of the first
    particle and thereby the global best, nothing else changing; any
    other point leaves the iterator as it is. *)
Theorem add_point_sets_global_best (it : Iterator) (p b : Point) :
  Forall (fun q => is_nan (Val (Best q)) = false) (Pop it) →
  Population_Best (Pop it) = Some b →
  ((Val p <? Val b)%float = true →
   ∃ p0 rest,
     Pop it = p0 :: rest
     ∧ AddPoint it p
       = Some (mkIterator (mkParticle (Id p0) (p_Point p0) (Vel p0) p :: rest)
                          (it_Evaler it) (it_Mover it))
     ∧ Population_Best (mkParticle (Id p0) (p_Point p0) (Vel p0) p :: rest)
       = Some p)
  ∧ ((Val p <? Val b)%float = false → AddPoint it p = Some it)
  ∧ AddPoint (mkIterator [] (it_Evaler it) (it_Mover it)) p = None.
Proof.
  intros Hnan Hbest. split_and!; [| |done].
  - intros Hlt. destruct (Pop it) as [|p0 rest] eqn:Hpop; [done|].
    exists p0, rest. split; [done|].
    split.
    { unfold AddPoint. rewrite Hpop, Hbest. simpl. by rewrite Hlt. }
    rewrite Population_Best_cons. cbn [Best]. f_equal.
    apply foldl_betterBest_keep. intros q Hq.
    apply Forall_cons in Hnan as [Hn0 Hnrest].
    rewrite Population_Best_cons in Hbest. injection Hbest as <-.
    destruct (foldl_betterBest_min rest Hnrest (Best p0) Hn0) as (_ & _ & Hall).
    apply ltb_asym. eapply ltb_leb_trans; [exact Hlt|by apply Hall].
  - intros Hlt. unfold AddPoint. rewrite Hbest. simpl. by rewrite Hlt.
Qed.

Lemma add_point_sets_global_best_witness :
  let it := NewIterator [fastParticle; settledParticle] None None in
  (∃ p0 rest,
     Pop it = p0 :: rest
     ∧ AddPoint it (mkPoint [9%float; 9%float] 0.5)
       = Some (mkIterator
                 (mkParticle (Id p0) (p_Point p0) (Vel p0)
                             (mkPoint [9%float; 9%float] 0.5) :: rest)
                 (it_Evaler it) (it_Mover it))
     ∧ Population_Best
         (mkParticle (Id p0) (p_Point p0) (Vel p0)
                     (mkPoint [9%float; 9%float] 0.5) :: rest)
       = Some (mkPoint [9%float; 9%float] 0.5))
  ∧ AddPoint it (mkPoint [9%float; 9%float] 2) = Some it.
Proof.
  intros it.
  assert (Forall (fun q => is_nan (Val (Best q)) = false) (Pop it)) as Hnan.
  { by repeat constructor. }
  split.
  - by apply (proj1 (add_point_sets_global_best it
                       (mkPoint [9%float; 9%float] 0.5)
                       (mkPoint [0%float; 1%float] 1) Hnan eq_refl)).
  - by apply (proj1 (proj2 (add_point_sets_global_best it
                              (mkPoint [9%float; 9%float] 2)
                              (mkPoint [0%float; 1%float] 1) Hnan eq_refl))).
Defined.

End SwarmMore.

(** ** The digest of a point *)

Module DigestFacts.
Import Optim.

(** A byte of [PutUint64], arithmetically. *)
Lemma byte_is_mod (v k : Z) :
  0 <= k -> Z.land (Z.shiftr v (8 * k)) 255 = (v / 2 ^ (8 * k)) mod 256.
Proof.
  intros Hk. rewrite Z.shiftr_div_pow2 by lia.
  change 255 with (Z.ones 8). by rewrite Z.land_ones by lia.
Qed.

(** Two numbers that agree on a byte and on everything above it agree
    from that byte on. *)
Lemma next_byte (v w k : Z) :
  0 <= k ->
  (v / 2 ^ (8 * k)) mod 256 = (w / 2 ^ (8 * k)) mod 256 ->
  v / 2 ^ (8 * (k + 1)) = w / 2 ^ (8 * (k + 1)) ->
  v / 2 ^ (8 * k) = w / 2 ^ (8 * k).
Proof.
  intros Hk Hmod Hdiv.
  replace (8 * (k + 1)) with (8 * k + 8) in Hdiv by lia.
  rewrite Z.pow_add_r in Hdiv by lia.
  rewrite <- !Z.div_div in Hdiv by lia.
  change (2 ^ 8) with 256 in Hdiv.
  rewrite (Z.div_mod (v / 2 ^ (8 * k)) 256), (Z.div_mod (w / 2 ^ (8 * k)) 256) by lia.
  by rewrite Hmod, Hdiv.
Qed.

(** The eight bytes determine a number below 2^64. *)
Lemma PutUint64_inj (v w : Z) :
  0 <= v < 2 ^ 64 -> 0 <= w < 2 ^ 64 -> PutUint64 v = PutUint64 w -> v = w.
Proof.
  intros Hv Hw. unfold PutUint64. simpl map.
  rewrite !byte_is_mod by lia.
  intros [= H7 H6 H5 H4 H3 H2 H1 H0].
  assert (v / 2 ^ (8 * 8) = w / 2 ^ (8 * 8)) as E8.
  { change (8 * 8) with 64. by rewrite !Z.div_small by lia. }
  pose proof (next_byte v w 7 ltac:(lia) H7 E8) as E7.
  pose proof (next_byte v w 6 ltac:(lia) H6 E7) as E6.
  pose proof (next_byte v w 5 ltac:(lia) H5 E6) as E5.
  pose proof (next_byte v w 4 ltac:(lia) H4 E5) as E4.
  pose proof (next_byte v w 3 ltac:(lia) H3 E4) as E3.
  pose proof (next_byte v w 2 ltac:(lia) H2 E3) as E2.
  pose proof (next_byte v w 1 ltac:(lia) H1 E2) as E1.
  pose proof (next_byte v w 0 ltac:(lia) H0 E1) as E0.
  change (2 ^ (8 * 0)) with 1 in E0. by rewrite !Z.div_1_r in E0.
Qed.

(** The number of binary digits of a mantissa. *)
Lemma digits2_pos_bounds (m : positive) :
  2 ^ (Z.pos (digits2_pos m) - 1) <= Z.pos m < 2 ^ Z.pos (digits2_pos m).
Proof.
  induction m as [m IH|m IH|]; simpl digits2_pos.
  - rewrite Pos2Z.inj_succ. replace (Z.succ (Z.pos (digits2_pos m)) - 1) with (Z.succ (Z.pos (digits2_pos m) - 1)) by lia.
    rewrite !Z.pow_succ_r by lia. lia.
  - rewrite Pos2Z.inj_succ. replace (Z.succ (Z.pos (digits2_pos m)) - 1) with (Z.succ (Z.pos (digits2_pos m) - 1)) by lia.
    rewrite !Z.pow_succ_r by lia. lia.
  - simpl. lia.
Qed.

(** A binary64 mantissa and exponent: subnormal or normal. *)
Lemma bounded_cases (m : positive) (e : Z) :
  bounded prec emax m e = true ->
  (Z.pos m < 2 ^ 52 /\ e = -1074)
  \/ (2 ^ 52 <= Z.pos m < 2 ^ 53 /\ -1074 <= e <= 971).
Proof.
  unfold bounded, canonical_mantissa, fexp, emin, prec, emax.
  intros [Hc He]%andb_true_iff. apply Z.eqb_eq in Hc. apply Z.leb_le in He.
  pose proof (digits2_pos_bounds m) as Hd.
  destruct (Z.max_spec (Z.pos (digits2_pos m) + e - 53) (3 - 1024 - 53)) as [[Hlt Hmax]|[Hle Hmax]];
    rewrite Hmax in Hc.
  - destruct (Z.eq_dec (Z.pos (digits2_pos m)) 53) as [E|NE].
    + right. rewrite E in Hd. change (2 ^ (53 - 1)) with (2 ^ 52) in Hd. lia.
    + left. split; [|lia].
      assert (Z.pos (digits2_pos m) <= 52) as Hd52 by lia.
      eapply Z.lt_le_trans; [apply Hd|]. apply Z.pow_le_mono_r; lia.
  - right. assert (Z.pos (digits2_pos m) = 53) as E by lia.
    rewrite E in Hd. change (2 ^ (53 - 1)) with (2 ^ 52) in Hd. lia.
Qed.

Ltac bit_constants :=
  change (2 ^ 64) with 18446744073709551616 in *;
  change (2 ^ 63) with 9223372036854775808 in *;
  change (2 ^ 53) with 9007199254740992 in *;
  change (2 ^ 52) with 4503599627370496 in *;
  change 0x7FF0000000000000 with 9218868437227405312 in *;
  change 0x7FF8000000000001 with 9221120237041090561 in *.

(** The bit pattern is a 64-bit number. *)
Lemma Float64bits_range (x : float) : 0 <= Float64bits x < 2 ^ 64.
Proof.
  unfold Float64bits. pose proof (Prim2SF_valid x) as Hv.
  destruct (Prim2SF x) as [[]|[]| |s m e]; bit_constants; try lia.
  change (bounded prec emax m e = true) in Hv.
  apply bounded_cases in Hv. bit_constants.
  destruct (Z.ltb_spec (Z.pos m) 4503599627370496), s; lia.
Qed.

(** The bit pattern of a finite value lies between those of zero and
    infinity of its sign, and determines the exponent and the mantissa. *)
Lemma finite_bits (s : bool) (m : positive) (e : Z) :
  bounded prec emax m e = true ->
  let b := (if s then 2 ^ 63 else 0) +
           (if Z.pos m <? 2 ^ 52 then Z.pos m
            else (e + 1075) * 2 ^ 52 + (Z.pos m - 2 ^ 52)) in
  (if s then 2 ^ 63 else 0) < b < (if s then 2 ^ 63 else 0) + 2047 * 2 ^ 52
  /\ e = Z.max ((b - (if s then 2 ^ 63 else 0)) / 2 ^ 52 - 1075) (-1074)
  /\ Z.pos m = (if (b - (if s then 2 ^ 63 else 0)) <? 2 ^ 52
                then b - (if s then 2 ^ 63 else 0)
                else (b - (if s then 2 ^ 63 else 0)) mod 2 ^ 52 + 2 ^ 52).
Proof.
  intros Hv b. subst b. apply bounded_cases in Hv.
  set (S := if s then 2 ^ 63 else 0).
  bit_constants.
  destruct (Z.ltb_spec (Z.pos m) 4503599627370496) as [Hsub|Hnorm].
  - replace (S + Z.pos m - S) with (Z.pos m) by lia.
    destruct (Z.ltb_spec (Z.pos m) 4503599627370496); [|lia].
    rewrite Z.div_small by lia. lia.
  - replace (S + ((e + 1075) * 4503599627370496 + (Z.pos m - 4503599627370496)) - S)
      with ((Z.pos m - 4503599627370496) + (e + 1075) * 4503599627370496) by lia.
    rewrite Z.div_add, Z.mod_add by lia.
    rewrite Z.div_small, Z.mod_small by lia.
    destruct (Z.ltb_spec (Z.pos m - 4503599627370496 + (e + 1075) * 4503599627370496)
                         4503599627370496); lia.
Qed.

Lemma finite_bits_inj (sx sy : bool) (mx my : positive) (ex ey : Z) :
  bounded prec emax mx ex = true -> bounded prec emax my ey = true ->
  (if sx then 2 ^ 63 else 0) +
    (if Z.pos mx <? 2 ^ 52 then Z.pos mx
     else (ex + 1075) * 2 ^ 52 + (Z.pos mx - 2 ^ 52))
  = (if sy then 2 ^ 63 else 0) +
    (if Z.pos my <? 2 ^ 52 then Z.pos my
     else (ey + 1075) * 2 ^ 52 + (Z.pos my - 2 ^ 52)) ->
  sx = sy /\ mx = my /\ ex = ey.
Proof.
  intros Hx Hy Hb.
  pose proof (finite_bits sx mx ex Hx) as Fx.
  pose proof (finite_bits sy my ey Hy) as Fy.
  cbv zeta in Fx, Fy. rewrite Hb in Fx.
  set (B := (if sy then 2 ^ 63 else 0) +
            (if Z.pos my <? 2 ^ 52 then Z.pos my
             else (ey + 1075) * 2 ^ 52 + (Z.pos my - 2 ^ 52))) in *.
  destruct Fx as (Rx & Ex & Mx), Fy as (Ry & Ey & My).
  assert (sx = sy) as ->.
  { clear Ex Mx Ey My Hb. destruct sx, sy; try done; bit_constants; lia. }
  split; [done|]. split; [|congruence].
  rewrite <- My in Mx. by injection Mx.
Qed.

(** Different values have different bit patterns. *)
Lemma Float64bits_inj (x y : float) : Float64bits x = Float64bits y -> x = y.
Proof.
  intros Hb. apply Prim2SF_inj. unfold Float64bits in Hb.
  pose proof (Prim2SF_valid x) as Hx. pose proof (Prim2SF_valid y) as Hy.
  destruct (Prim2SF x) as [sx|sx| |sx mx ex], (Prim2SF y) as [sy|sy| |sy my ey];
    try change (bounded prec emax mx ex = true) in Hx;
    try change (bounded prec emax my ey = true) in Hy;
    try (destruct (finite_bits_inj _ _ _ _ _ _ Hx Hy Hb) as (-> & -> & ->); done);
    try pose proof (finite_bits sx mx ex Hx) as (Rx & _);
    try pose proof (finite_bits sy my ey Hy) as (Ry & _);
    try (destruct sx); try (destruct sy); try done;
    exfalso; bit_constants; lia.
Qed.

Lemma PutUint64_length (v : Z) : length (PutUint64 v) = 8%nat.
Proof. reflexivity. Qed.

(** The bytes of a coordinate vector determine it. *)
Lemma coordinates_of_data (l1 : list float) :
  forall l2 : list float,
    concat (map (fun x => PutUint64 (Float64bits x)) l1)
    = concat (map (fun x => PutUint64 (Float64bits x)) l2) ->
    l1 = l2.
Proof.
  induction l1 as [|x l1 IH]; intros [|y l2]; cbn [map concat]; try done.
  intros Heq. apply app_inj_1 in Heq as [Hhead Htail]; [|done].
  f_equal; [|by apply IH].
  apply Float64bits_inj, PutUint64_inj; [apply Float64bits_range..|done].
Qed.

Lemma PutUint64_bytes (v : Z) : Forall (fun b => 0 <= b <= 255) (PutUint64 v).
Proof.
  unfold PutUint64. apply Forall_fmap, Forall_forall. intros k Hk. simpl.
  assert (0 <= k) as Hk0.
  { repeat (apply elem_of_cons in Hk as [->|Hk]; [lia|]).
    by apply elem_of_nil in Hk. }
  rewrite byte_is_mod by done.
  pose proof (Z.mod_pos_bound (v / 2 ^ (8 * k)) 256). lia.
Qed.

(** X21.  [hashPoint] hashes eight bytes per coordinate, and these bytes
    determine the coordinate vector: two points are given the same bytes
    exactly when their coordinate vectors are the same, value for value
    and sign of zero included; the objective value plays no part. *)
Theorem digest_input_determines_coordinates `{Sha1} (p q : Point) :
  hashPoint p = sha1_Sum (pointData p)
  ∧ length (pointData p) = (8 * length (Pos p))%nat
  ∧ Forall (fun b => 0 <= b <= 255) (pointData p)
  ∧ (pointData p = pointData q ↔ Pos p = Pos q).
Proof.
  split; [done|]. unfold pointData. split_and!.
  - induction (Pos p) as [|x l IH]; [done|].
    cbn [map concat]. rewrite length_app, IH, PutUint64_length. simpl. lia.
  - induction (Pos p) as [|x l IH]; [constructor|].
    cbn [map concat]. apply Forall_app. split; [apply PutUint64_bytes|done].
  - split; [apply coordinates_of_data|by intros ->].
Qed.

End DigestFacts.

(** ** What [Infinite.Nearest] does to the mesh *)

Module GridState.
Import Mesh Fixtures.

(** X22.  [Infinite.Nearest] changes neither the step nor the basis of
    the mesh; an origin that is set is never changed; an origin that is
    not set is fixed, by a call with a nonzero step, to the zero vector of
    the dimension of the point. *)
Theorem nearest_keeps_step_and_basis `{Mat64} (m : Infinite) (p q : list float)
    (m' : Infinite) :
  Nearest m p = Some (q, m') →
  StepSize m' = StepSize m ∧ Basis m' = Basis m
  ∧ (Center m ≠ [] → Center m' = Center m)
  ∧ (Center m = [] → (StepSize m =? 0)%float = false →
     Center m' = replicate (length p) 0%float).
Proof.
  unfold Nearest, Infinite_Mesh, Infinite_Nearest.
  destruct (StepSize m =? 0)%float.
  { intros [= <- <-]. by split_and!. }
  destruct (negb _ && negb _); [done|].
  intros Hn. apply bind_Some in Hn as (inv & _ & Hn).
  apply bind_Some in Hn as (rotv & _ & Hn).
  apply bind_Some in Hn as (nearest & _ & Hn).
  apply bind_Some in Hn as (moved & _ & Hn).
  injection Hn as <- <-. cbn [StepSize Basis Center].
  split_and!; [done|done| |].
  - intros Hc. by destruct (Center m).
  - by intros ->.
Qed.

Lemma nearest_keeps_step_and_basis_witness :
  StepSize (grid 3 [1.1%float]) = 3%float
  ∧ Basis (grid 3 [1.1%float]) = None
  ∧ ([1.1%float] ≠ [] → Center (grid 3 [1.1%float]) = [1.1%float])
  ∧ ([1.1%float] = [] → (3 =? 0)%float = false →
     Center (grid 3 [1.1%float]) = replicate 1 0%float).
Proof.
  exact (@nearest_keeps_step_and_basis noMatrices (grid 3 [1.1%float])
           [5.2%float] [4.0999999999999996%float] (grid 3 [1.1%float])
           eq_refl).
Defined.

(** X23.  The basis is inverted at most once.  A mesh with a basis and no
    inverse yet, nonzero step and a point of fitting dimension: [Nearest]
    panics when the inversion fails, and otherwise leaves the inverse in
    the mesh.  A mesh that holds an inverse, or has no basis, never has
    the inversion called: the result is the same whatever the inversion
    would return. *)
Theorem basis_inverted_once (mul : Dense → list float → option (list float))
    (inv1 inv2 : Dense → option Dense) (m : Infinite) (p : list float) :
  let M1 := {| Inverse := inv1; MulVec := mul |} in
  let M2 := {| Inverse := inv2; MulVec := mul |} in
  (is_Some (inverter m) ∨ Basis m = None →
   @Infinite_Nearest M1 m p = @Infinite_Nearest M2 m p)
  ∧ (∀ b, Basis m = Some b → inverter m = None →
          (StepSize m =? 0)%float = false →
          (inv1 b = None → @Infinite_Nearest M1 m p = None)
          ∧ (∀ q m', @Infinite_Nearest M1 m p = Some (q, m') →
                     inverter m' = inv1 b ∧ is_Some (inv1 b))).
Proof.
  intros M1 M2. split.
  - intros Hinv. unfold Infinite_Nearest.
    destruct (StepSize m =? 0)%float; [done|].
    destruct (negb _ && negb _); [done|].
    destruct Hinv as [[i ->]| ->]; [by destruct (Basis m)|done].
  - intros b Hb Hi Hstep. unfold Infinite_Nearest. rewrite Hstep, Hb, Hi.
    destruct (negb _ && negb _); [done|]. cbn [Inverse M1].
    destruct (inv1 b) as [i|]; [|done]. split; [done|].
    intros q m' Hn. cbn [mbind option_bind] in Hn.
    apply bind_Some in Hn as (rotv & _ & Hn).
    apply bind_Some in Hn as (nearest & _ & Hn).
    apply bind_Some in Hn as (moved & _ & Hn).
    injection Hn as <- <-. by split; [|eexists].
Qed.

Lemma basis_inverted_once_witness :
  let id2 : Dense := [[1%float; 0%float]; [0%float; 1%float]] in
  let m := mkInfinite [] (Some id2) 1 None in
  let M := {| Inverse := fun _ => None; MulVec := fun _ v => Some v |} in
  @Infinite_Nearest M m [1%float; 2%float] = None
  ∧ @Infinite_Nearest {| Inverse := fun _ => None; MulVec := fun _ v => Some v |}
                      (grid 1 []) [1%float; 2%float]
    = @Infinite_Nearest {| Inverse := fun a => Some a; MulVec := fun _ v => Some v |}
                        (grid 1 []) [1%float; 2%float].
Proof.
  intros id2 m M. split.
  - apply (proj2 (basis_inverted_once (fun _ v => Some v) (fun _ => None)
                    (fun _ => None) m [1%float; 2%float]) id2); done.
  - apply (proj1 (basis_inverted_once (fun _ v => Some v) (fun _ => None)
                    (fun a => Some a) (grid 1 []) [1%float; 2%float])).
    by right.
Defined.

End GridState.
